(** * Envoy v2 route generation (python/ambassador/envoy/v2/v2route.py)

    A shallow embedding of the route compiler: the regex safety policy
    ([regex_matcher]), host-glob matching ([hostglob_matches]), the
    constructor of a route ([V2Route_init], Python's [V2Route.__init__]) with
    its helper generators, the host-constraint query ([host_constraints]) and
    the cached constructor ([get_route]).

    Python dictionaries with a fixed set of keys become records whose
    optional keys are [option] fields; the dictionaries returned by
    [regex_matcher], whose key is computed, are [gmap string _]; Python sets
    of strings are [gset string]; exceptions are the [Raise] case of
    [result]. *)

From Stdlib Require Import ZArith String Ascii List DecimalString.
From stdpp Require Import base option list gmap sets strings.

Open Scope string_scope.
Open Scope list_scope.
Open Scope Z_scope.

(** ** Python values and exceptions *)

#[local] Set Warnings "-register-all".

(** Plain data that the compiler passes through without looking inside
    (secret references, serialized CORS and retry policies, header values). *)
Inductive Value :=
| VNone
| VBool (b : bool)
| VInt (n : Z)
| VStr (s : string)
| VList (l : list Value)
| VDict (d : list (string * Value)).

(** Python truthiness, [bool(v)]. *)
Definition truthy (v : Value) : bool :=
  match v with
  | VNone => false
  | VBool b => b
  | VInt n => negb (n =? 0)
  | VStr s => negb (String.eqb s EmptyString)
  | VList l => match l with [] => false | _ => true end
  | VDict d => match d with [] => false | _ => true end
  end.

(** [d.get(k)] on a serialized dictionary (first binding of the key). *)
Fixpoint dict_get (k : string) (d : list (string * Value)) : option Value :=
  match d with
  | [] => None
  | (k', v) :: d' => if String.eqb k k' then Some v else dict_get k d'
  end.

(** The exceptions this module can raise. *)
Inductive exn := AttributeError | KeyError | AssertionError | OverflowError.

Inductive result (A : Type) :=
| Ok (a : A)
| Raise (e : exn).
Arguments Ok {A} a.
Arguments Raise {A} e.

#[global] Instance result_ret : MRet result := λ A a, Ok a.
#[global] Instance result_bind : MBind result := λ A B f r,
  match r with
  | Ok a => f a
  | Raise e => Raise e
  end.

(** [obj.attr] / [d[k]] on a key that may be missing. *)
Definition attr {A} (o : option A) : result A :=
  match o with Some a => Ok a | None => Raise AttributeError end.
Definition item {A} (o : option A) : result A :=
  match o with Some a => Ok a | None => Raise KeyError end.

(** ** Python string operations *)

(** [s.startswith(p)] *)
Fixpoint startswith (s p : string) {struct p} : bool :=
  match p, s with
  | EmptyString, _ => true
  | String _ _, EmptyString => false
  | String c p', String d s' => Ascii.eqb d c && startswith s' p'
  end.

(** [s.endswith(suf)]: some tail of [s] is [suf]. *)
Fixpoint endswith (s suf : string) : bool :=
  String.eqb s suf ||
  match s with
  | EmptyString => false
  | String _ s' => endswith s' suf
  end.

(** [s[:-1]] *)
Definition drop_last (s : string) : string :=
  substring 0 (String.length s - 1) s.

(** [s[1:]] *)
Definition drop_first (s : string) : string :=
  match s with
  | EmptyString => EmptyString
  | String _ s' => s'
  end.

(** [s.lower()] on the ASCII letters. No other character lower-cases to a
    letter of ["unsafe"], the only string the result is compared with. *)
Definition lower_ascii (c : ascii) : ascii :=
  let n := N_of_ascii c in
  if ((65 <=? n) && (n <=? 90))%N then ascii_of_N (n + 32) else c.

Fixpoint lower (s : string) : string :=
  match s with
  | EmptyString => EmptyString
  | String c s' => String (lower_ascii c) (lower s')
  end.

(** ["%d" % n] for an integer. *)
Definition str_of_Z (n : Z) : string := NilZero.string_of_int (Z.to_int n).

(** Three digits, for [0 <= n < 1000]. *)
Definition pad3 (n : Z) : string :=
  (if n <? 10 then "00" else if n <? 100 then "0" else EmptyString) +:+ str_of_Z n.

(** *** Double-precision arithmetic

    Lines 183 and 190 divide an integer by the float [1000.0] and print the
    quotient with three decimals. A double is handled here through its
    exact value, a pair [(n, d)] standing for the rational [n / d]. *)

(** [num / den] rounded to the nearest integer, ties to even ([0 <= num],
    [0 < den]). *)
Definition round_half_even (num den : Z) : Z :=
  let q := num / den in
  let r := num mod den in
  if 2 * r <? den then q
  else if den <? 2 * r then q + 1
  else if Z.even q then q else q + 1.

(** [den * 2^k <= num], for [k] of either sign. *)
Definition at_least_pow2 (num den k : Z) : bool :=
  if 0 <=? k then den * 2 ^ k <=? num else den <=? num * 2 ^ (- k).

(** The double nearest to the rational [num / den] ([0 < num], [0 < den],
    ties to even, in the range of normal doubles): the significand keeps 53
    bits, so the quotient is rounded to a multiple of [2^e] where
    [2^(e+52) <= num / den < 2^(e+53)]. *)
Definition round_double (num den : Z) : Z * Z :=
  let k := Z.log2 num - Z.log2 den in
  let e := (if at_least_pow2 num den k then k else k - 1) - 52 in
  if 0 <=? e then (round_half_even num (den * 2 ^ e) * 2 ^ e, 1)
  else (round_half_even (num * 2 ^ (- e)) den, 2 ^ (- e)).

(** [float(n)] for an integer [0 <= n]: the nearest double, and
    [OverflowError] ("int too large to convert to float") when that would be
    [2^1024] or more, which is so from [2^1024 - 2^970] on. *)
Definition float_of_int (n : Z) : result (Z * Z) :=
  if 2 ^ 1024 - 2 ^ 970 <=? n then Raise OverflowError
  else if n =? 0 then Ok (0, 1)
  else Ok (round_double n 1).

(** ["%0.3f" % x] for a double [0 <= x] of exact value [n / d]: the decimal
    expansion correctly rounded to three places. *)
Definition format_3f (x : Z * Z) : string :=
  let thousandths := round_half_even (1000 * fst x) (snd x) in
  str_of_Z (thousandths / 1000) +:+ "." +:+ pad3 (thousandths mod 1000).

(** ["%0.3fs" % (ms / 1000.0)] for an integer [ms]: [ms] is converted to a
    double, divided by [1000.0] with the quotient rounded to a double, and
    printed. Sign and magnitude are independent in each step. *)
Definition format_seconds (ms : Z) : result string :=
  x ← float_of_int (Z.abs ms);
  let quotient :=
    if fst x =? 0 then (0, 1) else round_double (fst x) (snd x * 1000) in
  Ok ((if ms <? 0 then "-" else EmptyString) +:+ format_3f quotient +:+ "s").

(** ** hostglob_matches (lines 58-68)

    The two wildcard branches have no [else]: when the prefix or suffix test
    fails the function falls off its end and returns [None], which callers
    treat as false. *)
Definition hostglob_matches (glob value : string) : option bool :=
  if String.eqb glob "*" then Some true
  else if endswith glob "*" then
    if startswith value (drop_last glob) then Some true else None
  else if startswith glob "*" then
    if endswith value (drop_first glob) then Some true else None
  else Some (String.eqb value glob).

(** Truthiness of what [hostglob_matches] returns ([None] is false). *)
Definition is_true_result (r : option bool) : bool :=
  match r with Some b => b | None => false end.

(** ** Collaborators outside this module

    CORS and retry-policy resources and rate-limit labels are built elsewhere
    (the [ir] package); this module only calls the methods below on them. *)
Class Collaborators := {
  IRCORS : Type;
  cors_bool : IRCORS → bool;              (* truthiness, [if cors:] *)
  cors_dup : IRCORS → IRCORS;             (* [cors.dup()] *)
  cors_set_id : IRCORS → string → IRCORS; (* [cors.set_id(group_id)] *)
  cors_as_dict : IRCORS → Value;          (* [cors.as_dict()] *)
  IRRetryPolicy : Type;
  retry_as_dict : IRRetryPolicy → Value;  (* [retry_policy.as_dict()] *)
  RateLimitLabel : Type;
}.

Section Model.
Context {collaborators : Collaborators}.

(** ** The intermediate representation read by the compiler *)

Record IRCluster := { envoy_name : string }.

(** [IRBaseMapping], a dictionary: every key the constructor reads is an
    optional field, [m_other_keys] counts the keys it does not read (they
    only matter for [len(mapping)]). [cluster] is read as an attribute, which
    for these resources is a dictionary key as well. *)
Record IRBaseMapping := {
  m_prefix : option string;
  m_case_sensitive : option bool;
  m_weight : option Z;
  m_cluster : option IRCluster;
  m_bypass_auth : option bool;
  m_timeout_ms : option Z;
  m_idle_timeout_ms : option Z;
  m_rewrite : option string;
  m_host_rewrite : option string;
  m_auto_host_rewrite : option bool;
  m_other_keys : nat;
}.

Definition present {A} (o : option A) : nat :=
  match o with Some _ => 1%nat | None => 0%nat end.

(** [len(mapping)] *)
Definition mapping_len (m : IRBaseMapping) : nat :=
  (present (m_prefix m) + present (m_case_sensitive m) + present (m_weight m)
   + present (m_cluster m) + present (m_bypass_auth m)
   + present (m_timeout_ms m) + present (m_idle_timeout_ms m)
   + present (m_rewrite m) + present (m_host_rewrite m)
   + present (m_auto_host_rewrite m) + m_other_keys m)%nat.

(** The completely empty mapping that [generate] (line 359) passes for a
    group that only redirects. *)
Definition empty_mapping : IRBaseMapping :=
  {| m_prefix := None; m_case_sensitive := None; m_weight := None;
     m_cluster := None; m_bypass_auth := None; m_timeout_ms := None;
     m_idle_timeout_ms := None; m_rewrite := None; m_host_rewrite := None;
     m_auto_host_rewrite := None; m_other_keys := 0 |}.

Record IRTLSContext := { tls_hosts : list string; tls_secret_info : Value }.

Record GroupHeader := {
  gh_name : string;
  gh_value : string;
  gh_regex : bool;            (* [group_header.get('regex')] is truthy *)
}.

Record GroupQueryParameter := {
  gq_name : string;
  gq_value : option string;
  gq_regex : bool;
}.

Record HostRedirect := { hr_service : string; hr_path_redirect : option string }.

Record GroupRegexRewrite := {
  rr_pattern : option string;
  rr_substitution : option string;
}.

Record LBCookie := {
  ck_name : option string;
  ck_path : option string;
  ck_ttl : option string;
}.

Record LoadBalancer := {
  lb_policy : option string;
  lb_cookie : option LBCookie;
  lb_header : option string;
  lb_source_ip : option bool;
}.

(** [IRHTTPMappingGroup]. Lists read with a default of [[]] and only tested
    for emptiness are plain lists. *)
Record IRHTTPMappingGroup := {
  g_group_id : string;
  g_sni : option bool;
  g_tls_context : option IRTLSContext;
  g_precedence : option Z;
  g_prefix : option string;
  g_case_sensitive : option bool;
  g_headers : list GroupHeader;
  g_query_parameters : list GroupQueryParameter;
  g_add_request_headers : option (list (string * Value));
  g_add_response_headers : option (list (string * Value));
  g_remove_request_headers : option Value;
  g_remove_response_headers : option Value;
  g_host_redirect : option HostRedirect;
  g_priority : option string;
  g_regex_rewrite : option GroupRegexRewrite;
  g_load_balancer : option LoadBalancer;
  g_cors : option IRCORS;
  g_retry_policy : option IRRetryPolicy;
  g_shadows : option (list IRBaseMapping);
  g_labels : option (gmap string (list RateLimitLabel));
  g_allow_upgrade : option (list string);
}.

(** [config.ir.ambassador_module], [config.ir] and the configuration. The
    cache that [config] also carries is the separate [CacheState] below. *)
Record AmbassadorModule := {
  am_regex_type : option string;
  am_regex_max_size : option Z;
  am_cors : option IRCORS;
  am_retry_policy : option IRRetryPolicy;
}.

Record RateLimitService := { rl_domain : string }.

Record IR := {
  ambassador_module : AmbassadorModule;
  edge_stack_allowed : bool;
  ratelimit : option RateLimitService;   (* [None]: absent or falsy *)
}.

Record V2Config := { ir : IR }.

(** Path classification ([EnvoyRoute(group).envoy_route], from
    [envoy/common.py]) and the rate-limit action translator
    ([V2RateLimitAction], [Some d] for a valid action whose [to_dict()] is
    [d]) are defined in other modules. *)
Class Translators := {
  EnvoyRoute : IRHTTPMappingGroup → string;
  V2RateLimitAction : V2Config → RateLimitLabel → option Value;
}.
Context {translators : Translators}.

(** ** The emitted structures *)

Record GoogleRE2 := { max_program_size : Z }.

(** [{"google_re2": {"max_program_size": n}, "regex": r}] *)
Record SafeRegex := { google_re2 : GoogleRE2; sr_regex : option string }.

(** What [regex_matcher] stores under its key: a bounded matcher, or the raw
    pattern. A pattern is whatever the caller passed, a string or [None]. *)
Inductive MatcherValue :=
| Bounded (m : SafeRegex)
| Raw (regex : option string).

Record FractionalPercent := { numerator : Z; denominator : string }.

Record RuntimeFraction := {
  default_value : FractionalPercent;
  runtime_key : option string;
}.

(** One entry of [match['headers']]: [name], then either [exact_match] or
    the entries of [regex_matcher]. *)
Record HeaderMatcher := {
  hm_name : string;
  hm_exact_match : option string;
  hm_matcher_fields : gmap string MatcherValue;
}.

Inductive StringMatch :=
| SMRegex (d : gmap string MatcherValue)
| SMExact (exact : string).

Record QueryParameterMatcher := {
  qm_name : string;
  qm_string_match : option StringMatch;
  qm_present_match : option bool;
}.

(** The [match] dictionary. [mt_matcher_fields] holds the entries that
    [match.update(...)] merges in (keyed ["safe_regex"] or ["regex"]). A
    path value is the effective prefix, a string or [None]. *)
Record Match := {
  mt_case_sensitive : bool;
  mt_runtime_fraction : RuntimeFraction;
  mt_prefix : option (option string);
  mt_path : option (option string);
  mt_matcher_fields : gmap string MatcherValue;
  mt_headers : option (list HeaderMatcher);
  mt_query_parameters : option (list QueryParameterMatcher);
}.

Record CookiePolicy := {
  cp_name : option string;
  cp_path : option string;
  cp_ttl : option string;
}.
Record HeaderPolicy := { header_name : string }.
Record ConnectionProperties := { source_ip : bool }.

(** The dictionary [generate_hash_policy] fills: each key may be absent. *)
Record HashPolicy := {
  hp_cookie : option CookiePolicy;
  hp_header : option HeaderPolicy;
  hp_connection_properties : option ConnectionProperties;
}.

Definition hash_policy_len (hp : HashPolicy) : nat :=
  (present (hp_cookie hp) + present (hp_header hp)
   + present (hp_connection_properties hp))%nat.

(** The dictionary [generate_regex_rewrite] fills. *)
Record RegexRewrite := {
  rw_matcher_fields : gmap string MatcherValue;
  rw_substitution : option string;
}.

Definition regex_rewrite_len (rw : RegexRewrite) : nat :=
  (size (rw_matcher_fields rw) + present (rw_substitution rw))%nat.

Record HeaderKV := { hk_key : string; hk_value : Value }.
Record HeaderToAdd := { ha_header : HeaderKV; ha_append : bool }.

Record ExtAuthz := { ea_disabled : bool }.
Record PerFilterConfig := { envoy_ext_authz : option ExtAuthz }.

Record Redirect := { host_redirect : string; path_redirect : option string }.

Record MirrorPolicy := {
  mp_cluster : string;
  mp_runtime_fraction : RuntimeFraction;
}.

Record UpgradeConfig := { upgrade_type : string }.

(** The [route] dictionary. *)
Record Route := {
  rt_priority : option string;
  rt_timeout : string;
  rt_cluster : string;
  rt_idle_timeout : option string;
  rt_regex_rewrite : option RegexRewrite;
  rt_prefix_rewrite : option string;
  rt_host_rewrite : option string;
  rt_auto_host_rewrite : option bool;
  rt_hash_policy : option (list HashPolicy);
  rt_cors : option Value;
  rt_retry_policy : option Value;
  rt_request_mirror_policy : option MirrorPolicy;
  rt_rate_limits : option (list Value);
  rt_upgrade_configs : option (list UpgradeConfig);
}.

Record SNIInfo := { sni_hosts : list string; sni_secret_info : Value }.

(** A [V2Route]: the dictionary the constructor fills, and the [cache_key]
    attribute it has as a [Cacheable]. *)
Record V2Route := {
  r_sni : option SNIInfo;                 (* [self['_sni']] *)
  r_precedence : option Z;                (* [self['_precedence']] *)
  r_match : option Match;
  r_per_filter_config : option PerFilterConfig;
  r_request_headers_to_add : option (list HeaderToAdd);
  r_response_headers_to_add : option (list HeaderToAdd);
  r_request_headers_to_remove : option (list Value);
  r_response_headers_to_remove : option (list Value);
  r_redirect : option Redirect;
  r_route : option Route;
  r_cache_key : option string;
}.

Definition set_cache_key (r : V2Route) (k : string) : V2Route :=
  {| r_sni := r_sni r; r_precedence := r_precedence r; r_match := r_match r;
     r_per_filter_config := r_per_filter_config r;
     r_request_headers_to_add := r_request_headers_to_add r;
     r_response_headers_to_add := r_response_headers_to_add r;
     r_request_headers_to_remove := r_request_headers_to_remove r;
     r_response_headers_to_remove := r_response_headers_to_remove r;
     r_redirect := r_redirect r; r_route := r_route r;
     r_cache_key := Some k |}.

(** ** regex_matcher (lines 29-55)

    [key], [safe_key] and [re_type] are the keyword arguments; callers that
    leave them out pass ["regex"], [None] and [None]. *)
Definition effective_re_type (config : V2Config) (re_type : option string) : string :=
  match re_type with
  | None => lower (default "safe" (am_regex_type (ambassador_module (ir config))))
  | Some t => t
  end.

Definition regex_matcher (config : V2Config) (regex : option string)
    (key : string) (safe_key : option string) (re_type : option string)
    : gmap string MatcherValue :=
  let re_type := effective_re_type config re_type in
  if negb (String.eqb re_type "unsafe") then
    let max_size := default 200 (am_regex_max_size (ambassador_module (ir config))) in
    let safe_key :=
      match safe_key with
      | Some k => if String.eqb k EmptyString then "safe_" +:+ key else k
      | None => "safe_" +:+ key
      end in
    {[ safe_key := Bounded {| google_re2 := {| max_program_size := max_size |};
                              sr_regex := regex |} ]}
  else
    {[ key := Raw regex ]}.

(** ** The generators (lines 369-487) *)

(** [generate_headers] (lines 369-385) *)
Definition generate_headers (config : V2Config) (mapping_group : IRHTTPMappingGroup)
    : list HeaderMatcher :=
  map (λ group_header,
         if gh_regex group_header then
           {| hm_name := gh_name group_header;
              hm_exact_match := None;
              hm_matcher_fields :=
                regex_matcher config (Some (gh_value group_header))
                              "regex_match" None None |}
         else
           {| hm_name := gh_name group_header;
              hm_exact_match := Some (gh_value group_header);
              hm_matcher_fields := ∅ |})
      (g_headers mapping_group).

(** [generate_query_parameters] (lines 387-419) *)
Definition generate_query_parameters (config : V2Config)
    (mapping_group : IRHTTPMappingGroup) : list QueryParameterMatcher :=
  map (λ group_query_parameter,
         if gq_regex group_query_parameter then
           {| qm_name := gq_name group_query_parameter;
              qm_string_match :=
                Some (SMRegex (regex_matcher config
                                 (gq_value group_query_parameter)
                                 "regex" None None));
              qm_present_match := None |}
         else
           match gq_value group_query_parameter with
           | Some value =>
               {| qm_name := gq_name group_query_parameter;
                  qm_string_match := Some (SMExact value);
                  qm_present_match := None |}
           | None =>
               {| qm_name := gq_name group_query_parameter;
                  qm_string_match := None;
                  qm_present_match := Some true |}
           end)
      (g_query_parameters mapping_group).

(** [generate_hash_policy] (lines 421-449) *)
Definition generate_hash_policy (mapping_group : IRHTTPMappingGroup) : HashPolicy :=
  let hash_policy :=
    {| hp_cookie := None; hp_header := None; hp_connection_properties := None |} in
  match g_load_balancer mapping_group with
  | Some load_balancer =>
      let lb_policy := lb_policy load_balancer in
      if bool_decide (lb_policy = Some "ring_hash" ∨ lb_policy = Some "maglev") then
        match lb_cookie load_balancer, lb_header load_balancer,
              lb_source_ip load_balancer with
        | Some cookie, _, _ =>
            {| hp_cookie := Some {| cp_name := ck_name cookie;
                                    cp_path := ck_path cookie;
                                    cp_ttl := ck_ttl cookie |};
               hp_header := None; hp_connection_properties := None |}
        | None, Some header, _ =>
            {| hp_cookie := None;
               hp_header := Some {| header_name := header |};
               hp_connection_properties := None |}
        | None, None, Some source_ip =>
            {| hp_cookie := None; hp_header := None;
               hp_connection_properties := Some {| source_ip := source_ip |} |}
        | None, None, None => hash_policy
        end
      else hash_policy
  | None => hash_policy
  end.

(** [generate_headers_to_add] (lines 451-474): a structured value must have
    a ['value'] key ([KeyError] otherwise); its ['append'] key, when there,
    replaces the default [True]. *)
Definition header_to_add (k : string) (v : Value) : result HeaderToAdd :=
  match v with
  | VDict d =>
      let append :=
        match dict_get "append" d with
        | Some a => truthy a
        | None => true
        end in
      value ← item (dict_get "value" d);
      Ok {| ha_header := {| hk_key := k; hk_value := value |};
            ha_append := append |}
  | _ => Ok {| ha_header := {| hk_key := k; hk_value := v |}; ha_append := true |}
  end.

Fixpoint generate_headers_to_add (header_dict : list (string * Value))
    : result (list HeaderToAdd) :=
  match header_dict with
  | [] => Ok []
  | (k, v) :: rest =>
      h ← header_to_add k v;
      hs ← generate_headers_to_add rest;
      Ok (h :: hs)
  end.

(** [generate_regex_rewrite] (lines 476-487). The read of [substitution]
    (line 484) is outside the [is not None] test of line 480: with no
    ['regex_rewrite'] on the group it calls [.get] on [None]. *)
Definition generate_regex_rewrite (config : V2Config)
    (mapping_group : IRHTTPMappingGroup) : result RegexRewrite :=
  let group_regex_rewrite := g_regex_rewrite mapping_group in
  let fields : gmap string MatcherValue :=
    match group_regex_rewrite with
    | Some grr =>
        match rr_pattern grr with
        | Some pattern =>
            regex_matcher config (Some pattern) "regex" (Some "pattern")
                          (Some "safe") ∪ ∅
        | None => ∅
        end
    | None => ∅
    end in
  grr ← attr group_regex_rewrite;
  Ok {| rw_matcher_fields := fields; rw_substitution := rr_substitution grr |}.

(** ** V2Route.__init__ (lines 72-277), block by block *)

(** Lines 76-80: stash the SNI information. *)
Definition stash_sni (group : IRHTTPMappingGroup) : result (option SNIInfo) :=
  if default false (g_sni group) then
    tls_context ← item (g_tls_context group);
    Ok (Some {| sni_hosts := tls_hosts tls_context;
                sni_secret_info := tls_secret_info tls_context |})
  else Ok None.

(** Lines 82-83: stash the precedence, when it is truthy. *)
Definition stash_precedence (group : IRHTTPMappingGroup) : option Z :=
  match g_precedence group with
  | Some p => if p =? 0 then None else Some p
  | None => None
  end.

(** Lines 87-88: the mapping's own prefix, else the group's. *)
Definition route_prefix_of (group : IRHTTPMappingGroup) (mapping : IRBaseMapping)
    : option string :=
  match m_prefix mapping with
  | Some p => Some p
  | None => g_prefix group
  end.

(** Lines 90-91. *)
Definition case_sensitive_of (group : IRHTTPMappingGroup) (mapping : IRBaseMapping)
    : bool :=
  match m_case_sensitive mapping with
  | Some b => b
  | None => default true (g_case_sensitive group)
  end.

(** Lines 93-101: the runtime fraction of the match. *)
Definition runtime_fraction_of (mapping : IRBaseMapping) : result RuntimeFraction :=
  let default_value :=
    {| numerator := default 100 (m_weight mapping); denominator := "HUNDRED" |} in
  if (0 <? mapping_len mapping)%nat then
    cluster ← attr (m_cluster mapping);
    Ok {| default_value := default_value;
          runtime_key := Some ("routing.traffic_shift." +:+ envoy_name cluster) |}
  else
    Ok {| default_value := default_value; runtime_key := None |}.

(** The precedence that forces the bounded matcher (line 114). *)
Definition sentinel_precedence : Z := -1000000.

(** Lines 85-135: the match. [precedence] is [self.get('_precedence')]. *)
Definition build_match (config : V2Config) (group : IRHTTPMappingGroup)
    (mapping : IRBaseMapping) (precedence : option Z) : result Match :=
  let envoy_route := EnvoyRoute group in
  let route_prefix := route_prefix_of group mapping in
  let case_sensitive := case_sensitive_of group mapping in
  runtime_fraction ← runtime_fraction_of mapping;
  let prefix := if String.eqb envoy_route "prefix" then Some route_prefix else None in
  let path :=
    if String.eqb envoy_route "prefix" then None
    else if String.eqb envoy_route "path" then Some route_prefix else None in
  let matcher_fields : gmap string MatcherValue :=
    if String.eqb envoy_route "prefix" then ∅
    else if String.eqb envoy_route "path" then ∅
    else if edge_stack_allowed (ir config)
            && (default 0 precedence =? sentinel_precedence) then
      {[ "safe_regex" := Bounded {| google_re2 := {| max_program_size := 200 |};
                                    sr_regex := route_prefix |} ]}
    else regex_matcher config route_prefix "regex" None None in
  let headers := generate_headers config group in
  let query_parameters := generate_query_parameters config group in
  Ok {| mt_case_sensitive := case_sensitive;
        mt_runtime_fraction := runtime_fraction;
        mt_prefix := prefix;
        mt_path := path;
        mt_matcher_fields := matcher_fields;
        mt_headers := if (0 <? length headers)%nat then Some headers else None;
        mt_query_parameters :=
          if (0 <? length query_parameters)%nat then Some query_parameters
          else None |}.

(** Lines 137-144. *)
Definition build_per_filter_config (mapping : IRBaseMapping) : option PerFilterConfig :=
  if default false (m_bypass_auth mapping) then
    Some {| envoy_ext_authz := Some {| ea_disabled := true |} |}
  else None.

(** Lines 146-152: a non-empty dictionary of headers to add is expanded. *)
Definition build_headers_to_add (headers_to_add : option (list (string * Value)))
    : result (option (list HeaderToAdd)) :=
  match headers_to_add with
  | Some (h :: rest) =>
      hs ← generate_headers_to_add (h :: rest);
      Ok (Some hs)
  | _ => Ok None
  end.

(** Lines 154-164: a truthy value that is not a list is wrapped in one. *)
Definition build_headers_to_remove (headers_to_remove : option Value)
    : option (list Value) :=
  match headers_to_remove with
  | Some v =>
      if truthy v then
        Some (match v with VList l => l | _ => [v] end)
      else None
  | None => None
  end.

(** Lines 168-177. *)
Definition build_redirect (target : HostRedirect) : Redirect :=
  {| host_redirect := hr_service target;
     path_redirect :=
       match hr_path_redirect target with
       | Some p => if String.eqb p EmptyString then None else Some p
       | None => None
       end |}.

(** Lines 192-196: a non-empty regex rewrite wins over the literal one. *)
Definition prefix_rewrite_of (regex_rewrite : RegexRewrite) (mapping : IRBaseMapping)
    : option string :=
  if (0 <? regex_rewrite_len regex_rewrite)%nat then None
  else
    match m_rewrite mapping with
    | Some rewrite => if String.eqb rewrite EmptyString then None else Some rewrite
    | None => None
    end.

(** Lines 208-220: the group's CORS, else the module's; a truthy one is
    duplicated, given the group's id and serialized. *)
Definition build_cors (config : V2Config) (group : IRHTTPMappingGroup) : option Value :=
  let cors :=
    match g_cors group with
    | Some c => Some c
    | None => am_cors (ambassador_module (ir config))
    end in
  match cors with
  | Some c =>
      if cors_bool c then
        Some (cors_as_dict (cors_set_id (cors_dup c) (g_group_id group)))
      else None
  | None => None
  end.

(** Lines 222-230. *)
Definition build_retry_policy (config : V2Config) (group : IRHTTPMappingGroup)
    : option Value :=
  let retry_policy :=
    match g_retry_policy group with
    | Some p => Some (retry_as_dict p)
    | None => retry_as_dict <$> am_retry_policy (ambassador_module (ir config))
    end in
  match retry_policy with
  | Some d => if truthy d then Some d else None
  | None => None
  end.

(** Lines 232-248: only the first shadow is mirrored to. *)
Definition build_mirror_policy (group : IRHTTPMappingGroup)
    : result (option MirrorPolicy) :=
  match g_shadows group with
  | Some (shadow :: _) =>
      let weight := default 100 (m_weight shadow) in
      cluster ← attr (m_cluster shadow);
      Ok (Some {| mp_cluster := envoy_name cluster;
                  mp_runtime_fraction :=
                    {| default_value := {| numerator := weight;
                                           denominator := "HUNDRED" |};
                       runtime_key := None |} |})
  | _ => Ok None
  end.

(** Lines 250-271: the valid actions of the labels of the service's domain. *)
Definition build_rate_limits (config : V2Config) (group : IRHTTPMappingGroup)
    : option (list Value) :=
  match ratelimit (ir config), g_labels group with
  | Some rlsvc, Some labels =>
      let rate_limits :=
        omap (V2RateLimitAction config) (default [] (labels !! rl_domain rlsvc)) in
      match rate_limits with
      | [] => None
      | _ => Some rate_limits
      end
  | _, _ => None
  end.

(** Lines 273-275. *)
Definition build_upgrade_configs (group : IRHTTPMappingGroup)
    : option (list UpgradeConfig) :=
  match g_allow_upgrade group with
  | Some (proto :: protos) =>
      Some (map (λ proto, {| upgrade_type := proto |}) (proto :: protos))
  | _ => None
  end.

(** Lines 187-190. *)
Definition build_idle_timeout (mapping : IRBaseMapping) : result (option string) :=
  match m_idle_timeout_ms mapping with
  | Some idle_timeout_ms =>
      idle_timeout ← format_seconds idle_timeout_ms;
      Ok (Some idle_timeout)
  | None => Ok None
  end.

(** Lines 181-277: the route. In the dictionary of line 181 the timeout is
    formatted before the cluster is read. *)
Definition build_route (config : V2Config) (group : IRHTTPMappingGroup)
    (mapping : IRBaseMapping) : result Route :=
  timeout ← format_seconds (default 3000 (m_timeout_ms mapping));
  cluster ← attr (m_cluster mapping);
  idle_timeout ← build_idle_timeout mapping;
  regex_rewrite ← generate_regex_rewrite config group;
  let hash_policy := generate_hash_policy group in
  request_mirror_policy ← build_mirror_policy group;
  Ok {| rt_priority := g_priority group;
        rt_timeout := timeout;
        rt_cluster := envoy_name cluster;
        rt_idle_timeout := idle_timeout;
        rt_regex_rewrite :=
          if (0 <? regex_rewrite_len regex_rewrite)%nat then Some regex_rewrite
          else None;
        rt_prefix_rewrite := prefix_rewrite_of regex_rewrite mapping;
        rt_host_rewrite := m_host_rewrite mapping;
        rt_auto_host_rewrite := m_auto_host_rewrite mapping;
        rt_hash_policy :=
          if (0 <? hash_policy_len hash_policy)%nat then Some [hash_policy]
          else None;
        rt_cors := build_cors config group;
        rt_retry_policy := build_retry_policy config group;
        rt_request_mirror_policy := request_mirror_policy;
        rt_rate_limits := build_rate_limits config group;
        rt_upgrade_configs := build_upgrade_configs group |}.

(** The constructor: the blocks above in the order of the source. With a
    host redirect it returns at line 179, before any route is built. *)
Definition V2Route_init (config : V2Config) (group : IRHTTPMappingGroup)
    (mapping : IRBaseMapping) : result V2Route :=
  sni ← stash_sni group;
  let precedence := stash_precedence group in
  match_ ← build_match config group mapping precedence;
  let per_filter_config := build_per_filter_config mapping in
  request_headers_to_add ← build_headers_to_add (g_add_request_headers group);
  response_headers_to_add ← build_headers_to_add (g_add_response_headers group);
  let request_headers_to_remove :=
    build_headers_to_remove (g_remove_request_headers group) in
  let response_headers_to_remove :=
    build_headers_to_remove (g_remove_response_headers group) in
  match g_host_redirect group with
  | Some target =>
      Ok {| r_sni := sni; r_precedence := precedence; r_match := Some match_;
            r_per_filter_config := per_filter_config;
            r_request_headers_to_add := request_headers_to_add;
            r_response_headers_to_add := response_headers_to_add;
            r_request_headers_to_remove := request_headers_to_remove;
            r_response_headers_to_remove := response_headers_to_remove;
            r_redirect := Some (build_redirect target);
            r_route := None; r_cache_key := None |}
  | None =>
      route ← build_route config group mapping;
      Ok {| r_sni := sni; r_precedence := precedence; r_match := Some match_;
            r_per_filter_config := per_filter_config;
            r_request_headers_to_add := request_headers_to_add;
            r_response_headers_to_add := response_headers_to_add;
            r_request_headers_to_remove := request_headers_to_remove;
            r_response_headers_to_remove := response_headers_to_remove;
            r_redirect := None;
            r_route := Some route; r_cache_key := None |}
  end.

(** ** host_constraints (lines 280-307) *)

(** The loop of lines 300-305: the first header named [":authority"] that
    has an [exact_match] decides; without one the loop ends and [ret] is
    returned. *)
Fixpoint scan_authority (ret : gset string) (match_headers : list HeaderMatcher)
    : gset string :=
  match match_headers with
  | [] => ret
  | header :: rest =>
      match hm_exact_match header with
      | Some exact_match =>
          if String.eqb (hm_name header) ":authority" then
            if existsb (λ glob, is_true_result (hostglob_matches glob exact_match))
                       (elements ret)
            then {[ exact_match ]}
            else ∅
          else scan_authority ret rest
      | None => scan_authority ret rest
      end
  end.

(** Line 295: [set(self.get('_sni', {}).get('hosts', ['*']))] *)
Definition base_hosts (self : V2Route) : gset string :=
  list_to_set (match r_sni self with
               | Some sni => sni_hosts sni
               | None => ["*"]
               end).

(** Lines 298-299: [self.get("match", {}).get("headers", [])] *)
Definition match_headers_of (self : V2Route) : list HeaderMatcher :=
  match r_match self with
  | Some match_ => default [] (mt_headers match_)
  | None => []
  end.

Definition host_constraints (self : V2Route) (prune_unreachable_routes : bool)
    : gset string :=
  let ret := base_hosts self in
  if prune_unreachable_routes then scan_authority ret (match_headers_of self)
  else ret.

(** ** The cache and get_route (lines 310-337) *)

(** Objects a cache can hold: routes, and the resources other compilers
    store in the same cache. *)
Inductive Cacheable :=
| CRoute (route : V2Route)
| CResource (cache_key : option string).

Definition cache_key_of (c : Cacheable) : option string :=
  match c with
  | CRoute route => r_cache_key route
  | CResource k => k
  end.

(** Modelled from the spec: the [Cache] class behind [config.cache] (module
    [ambassador.cache]) is missing from the sources at hand. Following
    section 4.5, it is a store from cache keys to artifacts, looked up by key,
    together with the recorded dependency links. Objects live in [heap]; the
    identity of an object is its index there, so that "the same object" is a
    statement about indices. *)
Record CacheState := {
  heap : list Cacheable;
  store : gmap string nat;
  links : list (string * nat);     (* (owner group id, owned object) *)
}.

Definition empty_cache : CacheState :=
  {| heap := []; store := ∅; links := [] |}.

(** Modelled from the spec: [config.cache[key]], the stored object, or
    [None] when the key is not in the store. *)
Definition cache_lookup (st : CacheState) (key : string) : option nat :=
  store st !! key.

(** A newly constructed object. *)
Definition alloc (st : CacheState) (c : Cacheable) : nat * CacheState :=
  (length (heap st),
   {| heap := heap st ++ [c]; store := store st; links := links st |}).

(** [route.cache_key = cache_key] (line 324), on the object itself. *)
Definition force_cache_key (st : CacheState) (l : nat) (cache_key : string)
    : CacheState :=
  {| heap := alter (λ c, match c with
                         | CRoute route => CRoute (set_cache_key route cache_key)
                         | CResource _ => CResource (Some cache_key)
                         end) l (heap st);
     store := store st; links := links st |}.

(** Modelled from the spec: [config.cache.add(route)] inserts the object
    into the store, under the cache key the object carries. *)
Definition cache_add (st : CacheState) (l : nat) : CacheState :=
  match heap st !! l ≫= cache_key_of with
  | Some key => {| heap := heap st; store := <[key := l]> (store st);
                   links := links st |}
  | None => st
  end.

(** Modelled from the spec: [config.cache.link(irgroup, route)] records a
    dependency link from the group to the object. *)
Definition cache_link (st : CacheState) (owner : IRHTTPMappingGroup) (l : nat)
    : CacheState :=
  {| heap := heap st; store := store st;
     links := links st ++ [(g_group_id owner, l)] |}.

Definition get_route (config : V2Config) (st : CacheState) (cache_key : string)
    (irgroup : IRHTTPMappingGroup) (mapping : IRBaseMapping)
    : result (nat * CacheState) :=
  match cache_lookup st cache_key with
  | None =>
      route ← V2Route_init config irgroup mapping;
      let '(l, st) := alloc st (CRoute route) in
      let st := force_cache_key st l cache_key in
      let st := cache_add st l in
      let st := cache_link st irgroup l in
      Ok (l, st)
  | Some l =>
      match heap st !! l with
      | Some (CRoute _) => Ok (l, st)
      | _ => Raise AssertionError
      end
  end.

(** One request of a compilation pass. *)
Record Request := {
  rq_key : string;
  rq_group : IRHTTPMappingGroup;
  rq_mapping : IRBaseMapping;
}.

(** The requests of one pass, in the order [generate] (lines 343-367) makes
    them, on one cache; a failure aborts the pass. Returns the routes in
    request order. *)
Fixpoint get_routes (config : V2Config) (st : CacheState) (requests : list Request)
    : result (list nat * CacheState) :=
  match requests with
  | [] => Ok ([], st)
  | rq :: rest =>
      '(l, st) ← get_route config st (rq_key rq) (rq_group rq) (rq_mapping rq);
      '(ls, st) ← get_routes config st rest;
      Ok (l :: ls, st)
  end.

(** A cache in the state [add] leaves it in: every stored key leads to a
    live object that carries this key. *)
Definition cache_wf (st : CacheState) : Prop :=
  ∀ key l, store st !! key = Some l →
    ∃ c, heap st !! l = Some c ∧ cache_key_of c = Some key.

End Model.

(** ** Sample inputs

    A trivial instance of the collaborators (CORS and retry resources are
    already-serialized values, every label is a valid action) and a path
    classification that calls a prefix starting with ["^"] a regex. *)
Module Sample.

#[local] Instance collaborators : Collaborators :=
  {| IRCORS := Value; cors_bool := truthy; cors_dup := λ c, c;
     cors_set_id := λ c _, c; cors_as_dict := λ c, c;
     IRRetryPolicy := Value; retry_as_dict := λ p, p;
     RateLimitLabel := Value |}.

#[local] Instance translators : Translators :=
  {| EnvoyRoute := λ group,
       if startswith (default EmptyString (g_prefix group)) "^" then "regex" else "prefix";
     V2RateLimitAction := λ _ label, Some label |}.

(** No [regex_type], no [regex_max_size], nothing else configured. *)
Definition config : V2Config :=
  {| ir := {| ambassador_module :=
                {| am_regex_type := None; am_regex_max_size := None;
                   am_cors := None; am_retry_policy := None |};
              edge_stack_allowed := false; ratelimit := None |} |}.

(** Global regex mode ["unsafe"], in an installation where
    [edge_stack_allowed] holds. *)
Definition config_unsafe : V2Config :=
  {| ir := {| ambassador_module :=
                {| am_regex_type := Some "unsafe"; am_regex_max_size := None;
                   am_cors := None; am_retry_policy := None |};
              edge_stack_allowed := true; ratelimit := None |} |}.

(** A mapping to cluster ["c1"] with the given weight and literal rewrite,
    every timeout unset. *)
Definition mapping (prefix : string) (weight : Z) (rewrite : option string)
    : IRBaseMapping :=
  {| m_prefix := Some prefix; m_case_sensitive := None; m_weight := Some weight;
     m_cluster := Some {| envoy_name := "c1" |}; m_bypass_auth := None;
     m_timeout_ms := None; m_idle_timeout_ms := None; m_rewrite := rewrite;
     m_host_rewrite := None; m_auto_host_rewrite := None; m_other_keys := 0 |}.

(** A group with the given prefix, precedence, regex rewrite, load balancer
    and redirect, and nothing else. *)
Definition group (prefix : string) (precedence : option Z)
    (regex_rewrite : option GroupRegexRewrite)
    (load_balancer : option LoadBalancer) (redirect : option HostRedirect)
    : IRHTTPMappingGroup :=
  {| g_group_id := "g1"; g_sni := None; g_tls_context := None;
     g_precedence := precedence; g_prefix := Some prefix;
     g_case_sensitive := None; g_headers := []; g_query_parameters := [];
     g_add_request_headers := None; g_add_response_headers := None;
     g_remove_request_headers := None; g_remove_response_headers := None;
     g_host_redirect := redirect; g_priority := None;
     g_regex_rewrite := regex_rewrite; g_load_balancer := load_balancer;
     g_cors := None; g_retry_policy := None; g_shadows := None;
     g_labels := None; g_allow_upgrade := None |}.

(** A [regex_rewrite] dictionary that is there but empty. *)
Definition no_regex_rewrite : GroupRegexRewrite :=
  {| rr_pattern := None; rr_substitution := None |}.

(** A route with the given SNI hosts whose match has one exact
    [":authority"] header. *)
Definition route_for (hosts : list string) (authority : string) : V2Route :=
  {| r_sni := Some {| sni_hosts := hosts; sni_secret_info := VNone |};
     r_precedence := None;
     r_match :=
       Some {| mt_case_sensitive := true;
               mt_runtime_fraction :=
                 {| default_value := {| numerator := 100; denominator := "HUNDRED" |};
                    runtime_key := None |};
               mt_prefix := Some (Some "/"); mt_path := None;
               mt_matcher_fields := ∅;
               mt_headers :=
                 Some [ {| hm_name := ":authority";
                           hm_exact_match := Some authority;
                           hm_matcher_fields := ∅ |} ];
               mt_query_parameters := None |};
     r_per_filter_config := None;
     r_request_headers_to_add := None; r_response_headers_to_add := None;
     r_request_headers_to_remove := None; r_response_headers_to_remove := None;
     r_redirect := None; r_route := None; r_cache_key := None |}.

End Sample.

(** ** The glob rules, as the specification words them

    A glob has a trailing (leading) wildcard when its last (first) character
    is ["*"]. The rules are taken in the order they are given: ["*"], then a
    trailing wildcard, then a leading wildcard, then equality. *)

Definition trailing_wildcard (glob : string) : Prop := ∃ p, glob = p +:+ "*".
Definition leading_wildcard (glob : string) : Prop := ∃ q, glob = "*" +:+ q.

Definition glob_rules (glob value : string) : Prop :=
  glob = "*"
  ∨ (∃ p, glob = p +:+ "*" ∧ ∃ rest, value = p +:+ rest)
  ∨ (¬ trailing_wildcard glob ∧ ∃ q, glob = "*" +:+ q ∧ ∃ front, value = front +:+ q)
  ∨ (¬ trailing_wildcard glob ∧ ¬ leading_wildcard glob ∧ value = glob).


(** ** Words of the specification about hash policies and header matchers *)

(** The load balancer uses a hash-based algorithm. *)
Definition hash_based (lb : LoadBalancer) : Prop :=
  lb_policy lb = Some "ring_hash" ∨ lb_policy lb = Some "maglev".

(** A header matcher named [":authority"] with an exact-match constraint. *)
Definition authority_exact (header : HeaderMatcher) : Prop :=
  hm_name header = ":authority" ∧ is_Some (hm_exact_match header).

(** ** generate (lines 339-367) *)

Section Driver.
Context {collaborators : Collaborators} {translators : Translators}.

(** A mapping of a group, with the [cache_key] attribute it has as a
    cacheable resource. *)
Record GroupMapping := { gm_cache_key : string; gm_mapping : IRBaseMapping }.

(** One element of [config.ir.ordered_groups()]: an HTTP mapping group with
    its ['mappings'] (a key that may be missing), or a group of another
    kind. *)
Inductive OrderedGroup :=
| HTTPGroup (irgroup : IRHTTPMappingGroup) (mappings : option (list GroupMapping))
| OtherGroup.

(** [config.save_element], defined with the configuration in another module:
    it is handed the group and the route, and what it returns is what
    [generate] appends to [config.routes]. *)
Class ElementStore := {
  save_element : string → IRHTTPMappingGroup → nat → nat;
}.
Context {element_store : ElementStore}.

(** [f"Route-{irgroup.group_id}-{suffix}"] *)
Definition route_key (irgroup : IRHTTPMappingGroup) (suffix : string) : string :=
  "Route-" +:+ g_group_id irgroup +:+ "-" +:+ suffix.

(** Lines 363-367: the loop over the mappings of one group. *)
Fixpoint generate_mappings (config : V2Config) (st : CacheState)
    (irgroup : IRHTTPMappingGroup) (mappings : list GroupMapping)
    : result (list nat * CacheState) :=
  match mappings with
  | [] => Ok ([], st)
  | mapping :: rest =>
      let key := route_key irgroup (gm_cache_key mapping) in
      '(l, st) ← get_route config st key irgroup (gm_mapping mapping);
      let route := save_element "route" irgroup l in
      '(routes, st) ← generate_mappings config st irgroup rest;
      Ok (route :: routes, st)
  end.

(** Line 348: a group that redirects and has no mapping. *)
Definition redirect_only (irgroup : IRHTTPMappingGroup)
    (mappings : option (list GroupMapping)) : bool :=
  bool_decide (g_host_redirect irgroup ≠ None)
  && (length (default [] mappings) =? 0)%nat.

(** Lines 344-367: the body of the loop over the groups. [irgroup.mappings]
    (line 363) is read after the redirect-only route has been made. *)
Definition generate_group (config : V2Config) (st : CacheState)
    (group : OrderedGroup) : result (list nat * CacheState) :=
  match group with
  | OtherGroup => Ok ([], st)
  | HTTPGroup irgroup mappings =>
      '(redirect_routes, st) ←
        (if redirect_only irgroup mappings then
           let key := route_key irgroup "hostredirect" in
           '(l, st) ← get_route config st key irgroup empty_mapping;
           Ok ([save_element "route" irgroup l], st)
         else Ok ([], st));
      mappings ← attr mappings;
      '(routes, st) ← generate_mappings config st irgroup mappings;
      Ok (redirect_routes ++ routes, st)
  end.

(** [generate]: [config.routes] starts empty and receives the routes of each
    group in turn; the result is [config.routes] and the cache. *)
Fixpoint generate (config : V2Config) (st : CacheState)
    (ordered_groups : list OrderedGroup) : result (list nat * CacheState) :=
  match ordered_groups with
  | [] => Ok ([], st)
  | group :: rest =>
      '(routes, st) ← generate_group config st group;
      '(more, st) ← generate config st rest;
      Ok (routes ++ more, st)
  end.

(** The requests [generate] makes to [get_route], in order: for a group,
    the redirect-only request if there is one, then one request per
    mapping. *)
Definition mapping_request (irgroup : IRHTTPMappingGroup) (mapping : GroupMapping)
    : Request :=
  {| rq_key := route_key irgroup (gm_cache_key mapping); rq_group := irgroup;
     rq_mapping := gm_mapping mapping |}.

Definition group_requests (group : OrderedGroup) : list Request :=
  match group with
  | OtherGroup => []
  | HTTPGroup irgroup mappings =>
      (if redirect_only irgroup mappings then
         [ {| rq_key := route_key irgroup "hostredirect"; rq_group := irgroup;
              rq_mapping := empty_mapping |} ]
       else [])
      ++ map (mapping_request irgroup) (default [] mappings)
  end.

Definition generate_requests (ordered_groups : list OrderedGroup) : list Request :=
  flat_map group_requests ordered_groups.

(** What [generate] appends for the routes that answer some requests: each
    route as [save_element] returns it for the group of its request. *)
Definition saved_routes (requests : list Request) (routes : list nat) : list nat :=
  zip_with (λ rq l, save_element "route" (rq_group rq) l) requests routes.

(** Whether a group takes part in [generate] without failing at line 363. *)
Definition has_mappings (group : OrderedGroup) : Prop :=
  match group with
  | OtherGroup => True
  | HTTPGroup _ mappings => is_Some mappings
  end.

End Driver.

(** ** More sample inputs *)
Module MoreSamples.

#[local] Existing Instances Sample.collaborators Sample.translators.

(** [save_element] handing back the route it is given. *)
#[local] Instance element_store : ElementStore :=
  {| save_element := λ _ _ route, route |}.

(** A group under SNI for ["*.example.com"] with one [:authority] header,
    regex or exact, and an empty ['regex_rewrite']. *)
Definition authority_group (regex : bool) : IRHTTPMappingGroup :=
  {| g_group_id := "g2"; g_sni := Some true;
     g_tls_context := Some {| tls_hosts := ["*.example.com"];
                              tls_secret_info := VNone |};
     g_precedence := None; g_prefix := Some "/foo/";
     g_case_sensitive := None;
     g_headers := [ {| gh_name := ":authority"; gh_value := "api.example.com";
                       gh_regex := regex |} ];
     g_query_parameters := [ {| gq_name := "debug"; gq_value := None;
                                gq_regex := false |} ];
     g_add_request_headers := Some [ ("x-plain", VStr "v") ];
     g_add_response_headers := None;
     g_remove_request_headers := Some (VStr "x-secret");
     g_remove_response_headers := None;
     g_host_redirect := None; g_priority := None;
     g_regex_rewrite := Some Sample.no_regex_rewrite; g_load_balancer := None;
     g_cors := None; g_retry_policy := None; g_shadows := None;
     g_labels := None; g_allow_upgrade := Some ["websocket"] |}.

(** A group that only redirects. *)
Definition redirect_group : IRHTTPMappingGroup :=
  Sample.group "/old/" None None None
    (Some {| hr_service := "elsewhere"; hr_path_redirect := Some EmptyString |}).

(** A mapping to cluster ["c1"] with the given timeout and idle timeout. *)
Definition timed_mapping (timeout_ms : Z) (idle_timeout_ms : option Z)
    : IRBaseMapping :=
  {| m_prefix := Some "/foo/"; m_case_sensitive := None; m_weight := Some 100;
     m_cluster := Some {| envoy_name := "c1" |}; m_bypass_auth := None;
     m_timeout_ms := Some timeout_ms; m_idle_timeout_ms := idle_timeout_ms;
     m_rewrite := None; m_host_rewrite := None; m_auto_host_rewrite := None;
     m_other_keys := 0 |}.

(** A pass over a group with two mappings, a group of another kind and a
    redirect-only group. *)
Definition plain_group : IRHTTPMappingGroup :=
  Sample.group "/foo/" None (Some Sample.no_regex_rewrite) None None.

Definition ordered_groups : list OrderedGroup :=
  [ HTTPGroup plain_group
      (Some [ {| gm_cache_key := "m1"; gm_mapping := Sample.mapping "/foo/" 70 None |};
              {| gm_cache_key := "m2"; gm_mapping := Sample.mapping "/foo/" 30 None |} ]);
    OtherGroup;
    HTTPGroup redirect_group (Some []) ].

End MoreSamples.


(** * Properties *)

(** ** Strings *)

Lemma append_nil (s : string) : EmptyString +:+ s = s.
Proof. reflexivity. Qed.

Lemma append_cons (c : ascii) (s t : string) :
  String c s +:+ t = String c (s +:+ t).
Proof. reflexivity. Qed.

Lemma startswith_spec (s p : string) :
  startswith s p = true ↔ ∃ rest, s = p +:+ rest.
Proof.
  revert s.
  induction p as [|c p IH]; intros s; simpl.
  - split; [intros _; by exists s | done].
  - destruct s as [|d s].
    + split; [done | intros [rest Hr]; discriminate].
    + setoid_rewrite append_cons.
      destruct (Ascii.eqb_spec d c) as [->|Hne]; simpl.
      * rewrite IH. split; intros [rest Hr]; exists rest; congruence.
      * split; [done | intros [rest Hr]; congruence].
Qed.

Lemma endswith_unfold (s suf : string) :
  endswith s suf =
  String.eqb s suf || match s with
                      | EmptyString => false
                      | String _ s' => endswith s' suf
                      end.
Proof. by destruct s. Qed.

Lemma endswith_spec (s suf : string) :
  endswith s suf = true ↔ ∃ front, s = front +:+ suf.
Proof.
  split.
  - induction s as [|c s IH]; rewrite endswith_unfold; intros Hs;
      apply orb_true_iff in Hs as [Heq|Hs].
    + apply String.eqb_eq in Heq. by exists EmptyString.
    + done.
    + apply String.eqb_eq in Heq. by exists EmptyString.
    + destruct (IH Hs) as [front ->]. by exists (String c front).
  - intros [front ->].
    induction front as [|c front IH]; rewrite endswith_unfold.
    + by rewrite append_nil, String.eqb_refl.
    + rewrite append_cons, IH. apply orb_true_r.
Qed.

Lemma substring_prefix (p q : string) :
  substring 0 (String.length p) (p +:+ q) = p.
Proof.
  induction p as [|c p IH].
  - rewrite append_nil. by destruct q.
  - rewrite append_cons. simpl. by rewrite IH.
Qed.

Lemma length_snoc (p : string) (c : ascii) :
  String.length (p +:+ String c EmptyString) = S (String.length p).
Proof.
  induction p as [|d p IH]; [done|].
  rewrite append_cons. simpl. by rewrite IH.
Qed.

Lemma drop_last_snoc (p : string) (c : ascii) :
  drop_last (p +:+ String c EmptyString) = p.
Proof.
  unfold drop_last. rewrite length_snoc.
  replace (S (String.length p) - 1)%nat with (String.length p) by lia.
  apply substring_prefix.
Qed.

Lemma trailing_wildcard_spec (glob : string) :
  endswith glob "*" = true ↔ trailing_wildcard glob.
Proof. apply endswith_spec. Qed.

Lemma leading_wildcard_spec (glob : string) :
  startswith glob "*" = true ↔ leading_wildcard glob.
Proof. apply startswith_spec. Qed.

Lemma hostglob_matches_true (glob value : string) :
  hostglob_matches glob value = Some true ↔ glob_rules glob value.
Proof.
  unfold hostglob_matches, glob_rules.
  destruct (String.eqb_spec glob "*") as [->|Hstar]; [by split; [left|] |].
  destruct (endswith glob "*") eqn:Hend.
  - apply trailing_wildcard_spec in Hend as Htr. destruct Htr as [p ->].
    rewrite drop_last_snoc.
    destruct (startswith value p) eqn:Hsw.
    + apply startswith_spec in Hsw. split; [|done]. intros _. right; left. eauto.
    + split; [done|]. intros [?|[(p' & Hp & rest & ->)|[[Hn _]|[Hn _]]]].
      * done.
      * assert (p' = p) as ->.
        { rewrite <- (drop_last_snoc p "*"), <- (drop_last_snoc p' "*"). by rewrite Hp. }
        assert (startswith (p +:+ rest) p = true) by (apply startswith_spec; eauto).
        congruence.
      * destruct Hn. by exists p.
      * destruct Hn. by exists p.
  - assert (¬ trailing_wildcard glob) as Hntr.
    { rewrite <- trailing_wildcard_spec. congruence. }
    destruct (startswith glob "*") eqn:Hst.
    + apply leading_wildcard_spec in Hst as Hl. destruct Hl as [q ->].
      change (drop_first ("*" +:+ q)) with q.
      destruct (endswith value q) eqn:Hew.
      * apply endswith_spec in Hew. split; [|done]. intros _. right; right; left.
        split; [done|]. eauto.
      * split; [done|]. intros [?|[(p' & Hp & _)|[(_ & q' & Hq & front & ->)|(_ & Hn & _)]]].
        -- done.
        -- destruct Hntr. by exists p'.
        -- rewrite !append_cons, !append_nil in Hq. injection Hq as <-.
           assert (endswith (front +:+ q) q = true) by (apply endswith_spec; eauto).
           congruence.
        -- destruct Hn. by exists q.
    + assert (¬ leading_wildcard glob) as Hnl.
      { rewrite <- leading_wildcard_spec. congruence. }
      split.
      * intros [= Heq%String.eqb_eq]. by repeat right.
      * intros [?|[(p' & Hp & _)|[(_ & q' & Hq & _)|(_ & _ & ->)]]].
        -- done.
        -- destruct Hntr. by exists p'.
        -- destruct Hnl. by exists q'.
        -- by rewrite String.eqb_refl.
Qed.

(** ** Host globs *)

(** C6: the host-glob matcher returns true exactly by the four rules, taken
    in the order they are given. The glob ["*"] matches every value; a glob
    with a trailing ["*"] matches exactly the values that start with what
    precedes that ["*"]; a glob with a leading ["*"] (for which the trailing
    rule did not apply) matches exactly the values that end with what follows
    it; any other glob matches exactly the identical string. The five sample
    calls evaluate as stated. *)
Theorem hostglob_matches_rules :
  (∀ value, hostglob_matches "*" value = Some true)
  ∧ (∀ p value,
       hostglob_matches (p +:+ "*") value = Some true ↔ ∃ rest, value = p +:+ rest)
  ∧ (∀ q value, ¬ trailing_wildcard ("*" +:+ q) →
       (hostglob_matches ("*" +:+ q) value = Some true
        ↔ ∃ front, value = front +:+ q))
  ∧ (∀ glob value, ¬ trailing_wildcard glob → ¬ leading_wildcard glob →
       (hostglob_matches glob value = Some true ↔ value = glob))
  ∧ hostglob_matches "*" "anything" = Some true
  ∧ hostglob_matches "foo*" "foobar" = Some true
  ∧ hostglob_matches "*bar" "foobar" = Some true
  ∧ hostglob_matches "foo" "foo" = Some true
  ∧ hostglob_matches "foo" "bar" = Some false.
Proof.
  split; [done|].
  split.
  { intros p value. rewrite hostglob_matches_true. unfold glob_rules. split.
    - intros [Hs|[(p' & Hp & rest & ->)|[[Hn _]|[Hn _]]]].
      + destruct p as [|c p]; [by exists value|].
        rewrite append_cons in Hs. injection Hs as _ Hs. by destruct p.
      + exists rest. f_equal.
        rewrite <- (drop_last_snoc p "*"), <- (drop_last_snoc p' "*").
        by rewrite Hp.
      + destruct Hn. by exists p.
      + destruct Hn. by exists p.
    - intros [rest ->]. right; left. eauto. }
  split.
  { intros q value Hn. rewrite hostglob_matches_true. unfold glob_rules. split.
    - intros [Hs|[(p' & Hp & _)|[(_ & q' & Hq & front & ->)|(_ & Hl & _)]]].
      + destruct Hn. exists EmptyString. by rewrite Hs.
      + destruct Hn. by exists p'.
      + rewrite !append_cons, !append_nil in Hq. injection Hq as <-. eauto.
      + destruct Hl. by exists q.
    - intros [front ->]. right; right; left. eauto. }
  split.
  { intros glob value Hn Hl. rewrite hostglob_matches_true. unfold glob_rules.
    split.
    - intros [->|[(p' & Hp & _)|[(_ & q' & Hq & _)|(_ & _ & ->)]]].
      + destruct Hn. by exists EmptyString.
      + destruct Hn. by exists p'.
      + destruct Hl. by exists q'.
      + done.
    - intros ->. by repeat right. }
  by vm_compute.
Qed.

Lemma hostglob_matches_rules_witness :
  hostglob_matches "*.example.com" "api.example.com" = Some true
  ∧ (hostglob_matches "example.com" "example.com" = Some true).
Proof.
  destruct hostglob_matches_rules as (_ & _ & Hsuffix & Hexact & _).
  split.
  - apply (Hsuffix ".example.com" "api.example.com").
    + intros Ht%trailing_wildcard_spec. discriminate.
    + by exists "api".
  - apply (Hexact "example.com" "example.com").
    + intros Ht%trailing_wildcard_spec. discriminate.
    + intros Hl%leading_wildcard_spec. discriminate.
    + done.
Defined.

(** C10: for a glob longer than one character that both starts and ends
    with ["*"], only the trailing-wildcard rule is applied and the leading
    ["*"] is an ordinary character: the matcher returns true exactly when the
    value starts with the glob minus its last character. So ["*foo*"] does
    not match ["XfooY"] and does match ["*fooX"]. *)
Theorem hostglob_matches_both_wildcards :
  (∀ glob value,
     (1 < String.length glob)%nat →
     startswith glob "*" = true → endswith glob "*" = true →
     (hostglob_matches glob value = Some true
      ↔ startswith value (drop_last glob) = true))
  ∧ (∀ middle value,
       hostglob_matches ("*" +:+ middle +:+ "*") value = Some true
       ↔ ∃ rest, value = "*" +:+ middle +:+ rest)
  ∧ hostglob_matches "*foo*" "XfooY" = None
  ∧ hostglob_matches "*foo*" "*fooX" = Some true.
Proof.
  split.
  { intros glob value _ _ Hend. unfold hostglob_matches. rewrite Hend.
    destruct (String.eqb_spec glob "*") as [->|_]; [done|].
    by destruct (startswith value (drop_last glob)). }
  split.
  { intros middle value. unfold hostglob_matches.
    assert (endswith ("*" +:+ middle +:+ "*") "*" = true) as ->.
    { apply endswith_spec. by exists ("*" +:+ middle). }
    destruct (String.eqb_spec ("*" +:+ middle +:+ "*") "*") as [Heq|_].
    { rewrite !append_cons, !append_nil in Heq. injection Heq as Heq.
      by destruct middle. }
    change ("*" +:+ middle +:+ "*") with (("*" +:+ middle) +:+ "*") at 1.
    rewrite drop_last_snoc.
    assert (startswith value ("*" +:+ middle) = true
            ↔ ∃ rest, value = "*" +:+ middle +:+ rest) as <-
      by exact (startswith_spec value ("*" +:+ middle)).
    by destruct (startswith value ("*" +:+ middle)). }
  by vm_compute.
Qed.

Lemma hostglob_matches_both_wildcards_witness :
  hostglob_matches "*.example.*" "*.example.org" = Some true.
Proof.
  apply (proj1 hostglob_matches_both_wildcards "*.example.*" "*.example.org");
    [simpl; lia | reflexivity | reflexivity | reflexivity].
Defined.

Section Properties.
Context {collaborators : Collaborators} {translators : Translators}.

(** ** The result monad *)

Lemma bind_Ok {A B} (m : result A) (f : A → result B) (b : B) :
  m ≫= f = Ok b → ∃ a, m = Ok a ∧ f a = Ok b.
Proof. destruct m as [a|e]; [by exists a | done]. Qed.

(** ** The regex safety policy *)

(** C4: with no mode override and no global [regex_type], [regex_matcher]
    (called without a [safe_key] of its own) returns a single field keyed
    ["safe_" + key] (["safe_regex"] for the default key) holding a bounded matcher with the configured
    [regex_max_size] (200 when there is none) and the raw pattern; when the
    effective mode is ["unsafe"] it returns the raw pattern under [key]
    itself, with no bound. *)
Theorem regex_matcher_modes (config : V2Config) (regex : option string) (key : string) :
  (am_regex_type (ambassador_module (ir config)) = None →
     regex_matcher config regex key None None =
       {[ "safe_" +:+ key :=
            Bounded {| google_re2 :=
                         {| max_program_size :=
                              default 200 (am_regex_max_size
                                             (ambassador_module (ir config))) |};
                       sr_regex := regex |} ]})
  ∧ (am_regex_type (ambassador_module (ir config)) = None →
     am_regex_max_size (ambassador_module (ir config)) = None →
     regex_matcher config regex "regex" None None =
       {[ "safe_regex" :=
            Bounded {| google_re2 := {| max_program_size := 200 |};
                       sr_regex := regex |} ]})
  ∧ (∀ safe_key re_type,
       effective_re_type config re_type = "unsafe" →
       regex_matcher config regex key safe_key re_type = {[ key := Raw regex ]}).
Proof.
  unfold regex_matcher, effective_re_type. repeat split.
  - by intros ->.
  - by intros -> ->.
  - by intros safe_key re_type ->.
Qed.

(** ** The constructor *)

(** What a constructed route is made of. *)
Lemma V2Route_init_Ok (config : V2Config) (group : IRHTTPMappingGroup)
    (mapping : IRBaseMapping) (art : V2Route) :
  V2Route_init config group mapping = Ok art →
  r_precedence art = stash_precedence group
  ∧ r_cache_key art = None
  ∧ stash_sni group = Ok (r_sni art)
  ∧ (∃ match_, build_match config group mapping (stash_precedence group) = Ok match_
               ∧ r_match art = Some match_)
  ∧ match g_host_redirect group with
    | Some target =>
        r_redirect art = Some (build_redirect target) ∧ r_route art = None
    | None =>
        r_redirect art = None
        ∧ ∃ route, build_route config group mapping = Ok route
                   ∧ r_route art = Some route
    end.
Proof.
  unfold V2Route_init. intros Hinit.
  apply bind_Ok in Hinit as (sni & Hsni & Hinit).
  apply bind_Ok in Hinit as (match_ & Hmatch & Hinit).
  apply bind_Ok in Hinit as (req & Hreq & Hinit).
  apply bind_Ok in Hinit as (resp & Hresp & Hinit).
  destruct (g_host_redirect group) as [target|].
  - injection Hinit as <-. simpl. eauto 10.
  - apply bind_Ok in Hinit as (route & Hroute & Hinit).
    injection Hinit as <-. simpl. eauto 10.
Qed.

Lemma build_match_Ok (config : V2Config) (group : IRHTTPMappingGroup)
    (mapping : IRBaseMapping) (precedence : option Z) (match_ : Match) :
  build_match config group mapping precedence = Ok match_ →
  runtime_fraction_of mapping = Ok (mt_runtime_fraction match_)
  ∧ mt_matcher_fields match_ =
      (if String.eqb (EnvoyRoute group) "prefix" then ∅
       else if String.eqb (EnvoyRoute group) "path" then ∅
       else if edge_stack_allowed (ir config)
               && (default 0 precedence =? sentinel_precedence)
       then {[ "safe_regex" :=
                 Bounded {| google_re2 := {| max_program_size := 200 |};
                            sr_regex := route_prefix_of group mapping |} ]}
       else regex_matcher config (route_prefix_of group mapping) "regex" None None)
  ∧ mt_prefix match_ =
      (if String.eqb (EnvoyRoute group) "prefix"
       then Some (route_prefix_of group mapping) else None).
Proof.
  unfold build_match. intros Hm.
  apply bind_Ok in Hm as (rf & Hrf & Hm).
  injection Hm as <-. by simpl.
Qed.

Lemma build_route_Ok (config : V2Config) (group : IRHTTPMappingGroup)
    (mapping : IRBaseMapping) (route : Route) :
  build_route config group mapping = Ok route →
  (∃ cluster, m_cluster mapping = Some cluster ∧ rt_cluster route = envoy_name cluster)
  ∧ format_seconds (default 3000 (m_timeout_ms mapping)) = Ok (rt_timeout route)
  ∧ build_idle_timeout mapping = Ok (rt_idle_timeout route)
  ∧ (∃ regex_rewrite, generate_regex_rewrite config group = Ok regex_rewrite
                      ∧ rt_prefix_rewrite route = prefix_rewrite_of regex_rewrite mapping)
  ∧ rt_hash_policy route =
      (if (0 <? hash_policy_len (generate_hash_policy group))%nat
       then Some [generate_hash_policy group] else None).
Proof.
  unfold build_route. intros Hr.
  apply bind_Ok in Hr as (timeout & Htimeout & Hr).
  apply bind_Ok in Hr as (cluster & Hcluster & Hr).
  apply bind_Ok in Hr as (idle_timeout & Hidle & Hr).
  apply bind_Ok in Hr as (regex_rewrite & Hrw & Hr).
  apply bind_Ok in Hr as (mirror & Hmirror & Hr).
  injection Hr as <-. simpl.
  destruct (m_cluster mapping) as [c|]; [|done]. injection Hcluster as ->.
  eauto 10.
Qed.

(** C5: when the path classification of the group is neither [prefix] nor
    [path], [edge_stack_allowed] holds and the precedence recorded on the
    route is -1000000, the match of the route carries a [safe_regex] matcher
    with maximum program size 200 for the effective prefix (the mapping's own
    prefix when it has one, the group's otherwise), whatever the configured
    regex mode and size. *)
Theorem sentinel_forces_safe_regex (config : V2Config) (group : IRHTTPMappingGroup)
    (mapping : IRBaseMapping) (art : V2Route) :
  EnvoyRoute group ≠ "prefix" → EnvoyRoute group ≠ "path" →
  edge_stack_allowed (ir config) = true →
  V2Route_init config group mapping = Ok art →
  r_precedence art = Some (-1000000) →
  ∃ match_,
    r_match art = Some match_
    ∧ mt_matcher_fields match_ !! "safe_regex" =
        Some (Bounded {| google_re2 := {| max_program_size := 200 |};
                         sr_regex := match m_prefix mapping with
                                     | Some prefix => Some prefix
                                     | None => g_prefix group
                                     end |})
    ∧ mt_matcher_fields match_ !! "regex" = None.
Proof.
  intros Hprefix Hpath Hedge Hinit Hprec.
  change (match m_prefix mapping with
          | Some prefix => Some prefix
          | None => g_prefix group
          end) with (route_prefix_of group mapping).
  apply V2Route_init_Ok in Hinit as (Hp & _ & _ & (match_ & Hmatch & Hart) & _).
  exists match_. split; [done|].
  apply build_match_Ok in Hmatch as (_ & -> & _).
  rewrite <- Hp, Hprec, Hedge.
  destruct (String.eqb_spec (EnvoyRoute group) "prefix"); [done|].
  destruct (String.eqb_spec (EnvoyRoute group) "path"); [done|].
  simpl. split; [by rewrite lookup_singleton_eq | by rewrite lookup_singleton_ne].
Qed.

(** C8: on every constructed route the runtime fraction of the match has the
    default value [{numerator: weight (100 without one), denominator:
    HUNDRED}], and it has a runtime key, ["routing.traffic_shift."] followed
    by the cluster name, exactly when the mapping is not empty. The empty
    mapping passed for a redirect-only group gets numerator 100 and no key. *)
Theorem runtime_fraction_shape (config : V2Config) (group : IRHTTPMappingGroup)
    (mapping : IRBaseMapping) (art : V2Route) :
  V2Route_init config group mapping = Ok art →
  ∃ match_,
    r_match art = Some match_
    ∧ default_value (mt_runtime_fraction match_) =
        {| numerator := default 100 (m_weight mapping); denominator := "HUNDRED" |}
    ∧ (is_Some (runtime_key (mt_runtime_fraction match_))
       ↔ (0 < mapping_len mapping)%nat)
    ∧ (∀ key, runtime_key (mt_runtime_fraction match_) = Some key →
         ∃ cluster, m_cluster mapping = Some cluster
                    ∧ key = "routing.traffic_shift." +:+ envoy_name cluster)
    ∧ (mapping = empty_mapping →
         mt_runtime_fraction match_ =
           {| default_value := {| numerator := 100; denominator := "HUNDRED" |};
              runtime_key := None |}).
Proof.
  intros Hinit.
  apply V2Route_init_Ok in Hinit as (_ & _ & _ & (match_ & Hmatch & Hart) & _).
  exists match_. split; [done|].
  apply build_match_Ok in Hmatch as (Hrf & _).
  unfold runtime_fraction_of in Hrf.
  destruct (Nat.ltb_spec 0 (mapping_len mapping)) as [Hlen|Hlen].
  - apply bind_Ok in Hrf as (cluster & Hcluster & Hrf).
    injection Hrf as <-. simpl in *.
    destruct (m_cluster mapping) as [c|] eqn:Hc; [|done].
    injection Hcluster as ->.
    repeat split; eauto.
    + intros key [= <-]. eauto.
    + intros ->. done.
  - injection Hrf as <-. simpl.
    repeat split.
    + by intros [? ?].
    + lia.
    + done.
    + by intros ->.
Qed.

(** ** Hash policy *)

Lemma generate_hash_policy_len (group : IRHTTPMappingGroup) :
  hash_policy_len (generate_hash_policy group) = 0%nat
  ∨ hash_policy_len (generate_hash_policy group) = 1%nat.
Proof.
  unfold generate_hash_policy.
  destruct (g_load_balancer group) as [lb|]; [|by left].
  case_bool_decide; [|by left].
  destruct (lb_cookie lb), (lb_header lb), (lb_source_ip lb); auto.
Qed.

Lemma generate_hash_policy_hash_based (group : IRHTTPMappingGroup) :
  (0 < hash_policy_len (generate_hash_policy group))%nat →
  ∃ lb, g_load_balancer group = Some lb ∧ hash_based lb.
Proof.
  unfold generate_hash_policy.
  destruct (g_load_balancer group) as [lb|];
    [|intros Hlen; vm_compute in Hlen; lia].
  case_bool_decide; [eauto | intros Hlen; vm_compute in Hlen; lia].
Qed.

(** C9: the route has a [hash_policy] field only when the load-balancer
    policy of the group is [ring_hash] or [maglev]; the field is then a list
    of one policy with exactly one key: the cookie policy (name, with path
    and ttl when the cookie has them) if a cookie is configured, else the
    header policy if a header is, else the source-IP policy if [source_ip]
    is; when none of the three is configured, or the policy is not
    hash-based, the field is left out. *)
Theorem hash_policy_field (config : V2Config) (group : IRHTTPMappingGroup)
    (mapping : IRBaseMapping) (art : V2Route) (route : Route) :
  V2Route_init config group mapping = Ok art →
  r_route art = Some route →
  (∀ policies, rt_hash_policy route = Some policies →
     (∃ lb, g_load_balancer group = Some lb ∧ hash_based lb)
     ∧ ∃ policy, policies = [policy] ∧ hash_policy_len policy = 1%nat)
  ∧ (∀ lb, g_load_balancer group = Some lb → hash_based lb →
       (∀ cookie, lb_cookie lb = Some cookie →
          rt_hash_policy route =
            Some [ {| hp_cookie := Some {| cp_name := ck_name cookie;
                                           cp_path := ck_path cookie;
                                           cp_ttl := ck_ttl cookie |};
                      hp_header := None;
                      hp_connection_properties := None |} ])
       ∧ (lb_cookie lb = None → ∀ header, lb_header lb = Some header →
          rt_hash_policy route =
            Some [ {| hp_cookie := None;
                      hp_header := Some {| header_name := header |};
                      hp_connection_properties := None |} ])
       ∧ (lb_cookie lb = None → lb_header lb = None →
          ∀ ip, lb_source_ip lb = Some ip →
          rt_hash_policy route =
            Some [ {| hp_cookie := None; hp_header := None;
                      hp_connection_properties := Some {| source_ip := ip |} |} ])
       ∧ (lb_cookie lb = None → lb_header lb = None → lb_source_ip lb = None →
          rt_hash_policy route = None))
  ∧ ((∀ lb, g_load_balancer group = Some lb → ¬ hash_based lb) →
     rt_hash_policy route = None).
Proof.
  intros Hinit Hroute.
  apply V2Route_init_Ok in Hinit as (_ & _ & _ & _ & Hbranch).
  destruct (g_host_redirect group) as [target|].
  { destruct Hbranch as [_ Hnone]. congruence. }
  destruct Hbranch as (_ & route' & Hbuild & Hroute').
  assert (route' = route) as -> by congruence.
  apply build_route_Ok in Hbuild as (_ & _ & _ & _ & Hhash).
  rewrite Hhash. clear Hhash.
  split; [|split].
  - intros policies Hp.
    destruct (Nat.ltb_spec 0 (hash_policy_len (generate_hash_policy group)))
      as [Hlen|Hlen]; [|done].
    injection Hp as <-. split.
    + by apply generate_hash_policy_hash_based.
    + eexists. split; [done|].
      destruct (generate_hash_policy_len group); lia.
  - intros lb Hlb Hhb. unfold generate_hash_policy. rewrite Hlb.
    rewrite bool_decide_eq_true_2 by done.
    repeat split.
    + by intros cookie ->.
    + by intros -> header ->.
    + by intros -> -> ip ->.
    + by intros -> -> ->.
  - intros Hno. unfold generate_hash_policy.
    destruct (g_load_balancer group) as [lb|]; [|done].
    rewrite bool_decide_eq_false_2; [done|]. by apply Hno.
Qed.

(** ** The regex rewrite *)

(** Without a ['regex_rewrite'] on the group the generator raises. *)
Lemma generate_regex_rewrite_absent (config : V2Config) (group : IRHTTPMappingGroup) :
  g_regex_rewrite group = None →
  generate_regex_rewrite config group = Raise AttributeError.
Proof. unfold generate_regex_rewrite. by intros ->. Qed.

(** So no route is ever built for such a group: the constructor only
    returns for it when the group redirects. *)
Lemma V2Route_init_needs_regex_rewrite (config : V2Config)
    (group : IRHTTPMappingGroup) (mapping : IRBaseMapping) (art : V2Route) :
  V2Route_init config group mapping = Ok art →
  g_regex_rewrite group = None →
  is_Some (g_host_redirect group).
Proof.
  intros Hinit Hnone.
  apply V2Route_init_Ok in Hinit as (_ & _ & _ & _ & Hbranch).
  destruct (g_host_redirect group) as [target|]; [done|].
  destruct Hbranch as (_ & route & Hbuild & _).
  apply build_route_Ok in Hbuild as (_ & _ & _ & (rw & Hrw & _) & _).
  by rewrite generate_regex_rewrite_absent in Hrw.
Qed.

(** With a ['regex_rewrite'] that has neither pattern nor substitution, a
    non-empty literal rewrite of the mapping becomes [prefix_rewrite]. *)
Lemma prefix_rewrite_with_empty_regex_rewrite (config : V2Config)
    (group : IRHTTPMappingGroup) (mapping : IRBaseMapping) (art : V2Route)
    (route : Route) (rewrite : string) :
  V2Route_init config group mapping = Ok art →
  r_route art = Some route →
  g_regex_rewrite group = Some {| rr_pattern := None; rr_substitution := None |} →
  m_rewrite mapping = Some rewrite → rewrite ≠ EmptyString →
  rt_prefix_rewrite route = Some rewrite ∧ rt_regex_rewrite route = None.
Proof.
  intros Hinit Hroute Hrr Hrw Hne.
  apply V2Route_init_Ok in Hinit as (_ & _ & _ & _ & Hbranch).
  destruct (g_host_redirect group) as [target|].
  { destruct Hbranch as [_ Hnone]. congruence. }
  destruct Hbranch as (_ & route' & Hbuild & Hroute').
  assert (route' = route) as -> by congruence.
  unfold build_route in Hbuild.
  apply bind_Ok in Hbuild as (timeout & _ & Hbuild).
  apply bind_Ok in Hbuild as (cluster & _ & Hbuild).
  apply bind_Ok in Hbuild as (idle_timeout & _ & Hbuild).
  unfold generate_regex_rewrite in Hbuild. rewrite Hrr in Hbuild. simpl in Hbuild.
  apply bind_Ok in Hbuild as (mirror & _ & Hbuild).
  injection Hbuild as <-. simpl.
  unfold prefix_rewrite_of. simpl. rewrite Hrw.
  by destruct (String.eqb_spec rewrite EmptyString).
Qed.

(** ** Host constraints *)

Lemma is_true_result_spec (r : option bool) :
  is_true_result r = true ↔ r = Some true.
Proof. destruct r as [[]|]; simpl; split; congruence. Qed.

(** [any(hostglob_matches(glob, value) for glob in ret)] *)
Lemma any_glob_matches (ret : gset string) (value : string) :
  existsb (λ glob, is_true_result (hostglob_matches glob value)) (elements ret) = true
  ↔ ∃ glob, glob ∈ ret ∧ hostglob_matches glob value = Some true.
Proof.
  rewrite existsb_exists. split.
  - intros (glob & Hin & Hm). exists glob.
    by rewrite <- elem_of_elements, list_elem_of_In, <- is_true_result_spec.
  - intros (glob & Hin & Hm). exists glob.
    by rewrite <- list_elem_of_In, elem_of_elements, is_true_result_spec.
Qed.

(** Headers that are not exact [":authority"] matchers are passed over. *)
Lemma scan_authority_skip (ret : gset string) (before rest : list HeaderMatcher) :
  Forall (λ h, ¬ authority_exact h) before →
  scan_authority ret (before ++ rest) = scan_authority ret rest.
Proof.
  induction 1 as [|h before Hh _ IH]; [done|]. simpl.
  destruct (hm_exact_match h) as [literal|] eqn:Hexact; [|done].
  destruct (String.eqb_spec (hm_name h) ":authority") as [Hname|_]; [|done].
  destruct Hh. split; [done | by rewrite Hexact].
Qed.

(** C7: the base set is the SNI hosts recorded on the route, [{"*"}] when
    there are none. Without pruning the base set is returned as it is. With
    pruning, the first header matcher named [":authority"] that has an exact
    match decides: if its literal matches some glob of the base set the
    result is that literal alone, if it matches none the result is empty;
    without such a header matcher the base set is returned as it is. *)
Theorem host_constraints_spec (self : V2Route) :
  (∀ sni, r_sni self = Some sni → base_hosts self = list_to_set (sni_hosts sni))
  ∧ (r_sni self = None → base_hosts self = {[ "*" ]})
  ∧ host_constraints self false = base_hosts self
  ∧ (∀ before header after literal,
       match_headers_of self = before ++ header :: after →
       Forall (λ h, ¬ authority_exact h) before →
       hm_name header = ":authority" →
       hm_exact_match header = Some literal →
       ((∃ glob, glob ∈ base_hosts self ∧ hostglob_matches glob literal = Some true) →
          host_constraints self true = {[ literal ]})
       ∧ ((∀ glob, glob ∈ base_hosts self → hostglob_matches glob literal ≠ Some true) →
          host_constraints self true = ∅))
  ∧ (Forall (λ h, ¬ authority_exact h) (match_headers_of self) →
       host_constraints self true = base_hosts self).
Proof.
  split; [|split; [|split; [|split]]].
  - unfold base_hosts. by intros sni ->.
  - unfold base_hosts. intros ->. simpl. set_solver.
  - done.
  - intros before header after literal Hheaders Hbefore Hname Hexact.
    unfold host_constraints. rewrite Hheaders, scan_authority_skip by done.
    simpl. rewrite Hexact, Hname. simpl.
    destruct (existsb _ _) eqn:Hany.
    + split; [done|]. intros Hnone.
      apply any_glob_matches in Hany as (glob & Hin & Hm). by destruct (Hnone glob).
    + split; [|done]. intros Hsome%any_glob_matches. congruence.
  - intros Hnone. unfold host_constraints.
    rewrite <- (app_nil_r (match_headers_of self)).
    by rewrite scan_authority_skip.
Qed.

(** ** The route cache *)

Lemma get_route_hit (config : V2Config) (st : CacheState) (key : string)
    (group : IRHTTPMappingGroup) (mapping : IRBaseMapping) (l : nat) (route : V2Route) :
  cache_lookup st key = Some l → heap st !! l = Some (CRoute route) →
  get_route config st key group mapping = Ok (l, st).
Proof. unfold get_route. by intros -> ->. Qed.

Lemma get_route_miss (config : V2Config) (st : CacheState) (key : string)
    (group : IRHTTPMappingGroup) (mapping : IRBaseMapping) (art : V2Route) :
  cache_lookup st key = None → V2Route_init config group mapping = Ok art →
  get_route config st key group mapping =
    Ok (length (heap st),
        {| heap := heap st ++ [CRoute (set_cache_key art key)];
           store := <[key := length (heap st)]> (store st);
           links := links st ++ [(g_group_id group, length (heap st))] |}).
Proof.
  unfold get_route. intros -> ->. simpl.
  unfold cache_link, cache_add, force_cache_key. simpl.
  assert (alter (λ c, match c with
                      | CRoute route => CRoute (set_cache_key route key)
                      | CResource _ => CResource (Some key)
                      end) (length (heap st)) (heap st ++ [CRoute art])
          = heap st ++ [CRoute (set_cache_key art key)]) as ->.
  { by rewrite alter_app_r_alt, Nat.sub_diag. }
  rewrite lookup_app_r by lia. rewrite Nat.sub_diag. done.
Qed.


(** An answered request leaves a well-formed cache well-formed, keeps what
    was stored, and stores the returned object under the requested key. *)
Lemma get_route_wf (config : V2Config) (st st' : CacheState) (key : string)
    (group : IRHTTPMappingGroup) (mapping : IRBaseMapping) (l : nat) :
  cache_wf st →
  get_route config st key group mapping = Ok (l, st') →
  cache_wf st'
  ∧ store st' !! key = Some l
  ∧ (∀ k l0, store st !! k = Some l0 → store st' !! k = Some l0).
Proof.
  intros Hwf Hget.
  destruct (cache_lookup st key) as [l0|] eqn:Hlookup.
  - unfold get_route in Hget. rewrite Hlookup in Hget.
    destruct (heap st !! l0) as [[route|k]|]; try done.
    by injection Hget as <- <-.
  - destruct (V2Route_init config group mapping) as [art|e] eqn:Hinit.
    2: { unfold get_route in Hget. by rewrite Hlookup, Hinit in Hget. }
    rewrite (get_route_miss _ _ _ _ _ _ Hlookup Hinit) in Hget.
    injection Hget as <- <-. simpl. split; [|split].
    + intros k l0. simpl. rewrite lookup_insert.
      case_decide as Hk.
      * intros [= <-]. subst k. eexists. split.
        -- rewrite lookup_app_r by lia. by rewrite Nat.sub_diag.
        -- done.
      * intros Hl0. destruct (Hwf k l0 Hl0) as (c & Hc & Hkey).
        exists c. split; [|done]. by apply lookup_app_l_Some.
    + by rewrite lookup_insert_eq.
    + intros k l0 Hl0. rewrite lookup_insert_ne; [done|].
      intros <-. unfold cache_lookup in Hlookup. congruence.
Qed.

Lemma get_routes_wf (config : V2Config) (requests : list Request) :
  ∀ (st st' : CacheState) (routes : list nat),
    cache_wf st →
    get_routes config st requests = Ok (routes, st') →
    cache_wf st'
    ∧ (∀ k l0, store st !! k = Some l0 → store st' !! k = Some l0)
    ∧ Forall2 (λ rq l, store st' !! rq_key rq = Some l) requests routes.
Proof.
  induction requests as [|rq rest IH]; intros st st' routes Hwf Hget; simpl in Hget.
  - injection Hget as <- <-. by repeat split.
  - apply bind_Ok in Hget as ([l st1] & Hhead & Hget).
    apply bind_Ok in Hget as ([ls st2] & Htail & Hget).
    injection Hget as <- <-.
    apply get_route_wf in Hhead as (Hwf1 & Hl & Hmono1); [|done].
    apply IH in Htail as (Hwf2 & Hmono2 & Hall); [|done].
    split; [done|]. split; [by eauto|].
    constructor; [by apply Hmono2 | done].
Qed.



(** * Further properties of the module *)

(** ** Host globs and host constraints *)

(** X1: every glob matches itself taken as a value, wildcards included. *)
Theorem hostglob_matches_refl (glob : string) :
  hostglob_matches glob glob = Some true.
Proof.
  unfold hostglob_matches.
  destruct (String.eqb_spec glob "*") as [|_]; [done|].
  destruct (endswith glob "*") eqn:Hend.
  - apply trailing_wildcard_spec in Hend as [p ->].
    rewrite drop_last_snoc.
    assert (startswith (p +:+ "*") p = true) as ->; [|done].
    apply startswith_spec. by exists "*".
  - destruct (startswith glob "*") eqn:Hstart.
    + apply leading_wildcard_spec in Hstart as [q ->].
      change (drop_first ("*" +:+ q)) with q.
      assert (endswith ("*" +:+ q) q = true) as ->; [|done].
      apply endswith_spec. by exists "*".
    + by rewrite String.eqb_refl.
Qed.

(** X2: [False] is returned only by the exact comparison: for a glob that
    has neither wildcard and differs from the value. A glob with a wildcard
    whose test fails yields [None], never [False]. *)
Theorem hostglob_matches_false_or_none (glob value : string) :
  (hostglob_matches glob value = Some false
   ↔ ¬ trailing_wildcard glob ∧ ¬ leading_wildcard glob ∧ value ≠ glob)
  ∧ (hostglob_matches glob value = None
     ↔ (trailing_wildcard glob ∨ leading_wildcard glob)
       ∧ hostglob_matches glob value ≠ Some true).
Proof.
  unfold hostglob_matches.
  destruct (String.eqb_spec glob "*") as [->|_].
  { split; split; try done.
    - intros (Hn & _). destruct Hn. by exists EmptyString.
    - by intros [_ Hne]. }
  destruct (endswith glob "*") eqn:Hend.
  - apply trailing_wildcard_spec in Hend as Htr.
    destruct (startswith value (drop_last glob)); split; split; try done.
    + by intros (Hn & _).
    + by intros [_ Hne].
    + by intros (Hn & _).
    + by intros _; split; [left|].
  - assert (¬ trailing_wildcard glob) as Hntr.
    { rewrite <- trailing_wildcard_spec. congruence. }
    destruct (startswith glob "*") eqn:Hstart.
    + apply leading_wildcard_spec in Hstart as Hl.
      destruct (endswith value (drop_first glob)); split; split; try done.
      * by intros (_ & Hn & _).
      * by intros [_ Hne].
      * by intros (_ & Hn & _).
      * by intros _; split; [right|].
    + assert (¬ leading_wildcard glob) as Hnl.
      { rewrite <- leading_wildcard_spec. congruence. }
      destruct (String.eqb_spec value glob) as [->|Hne]; split; split; try done.
      * by intros (_ & _ & Hne).
      * by intros [[?|?] _].
      * by intros [[?|?] _].
Qed.

Lemma scan_authority_covered (ret : gset string) (match_headers : list HeaderMatcher)
    (host : string) :
  host ∈ scan_authority ret match_headers →
  ∃ glob, glob ∈ ret ∧ hostglob_matches glob host = Some true.
Proof.
  induction match_headers as [|header rest IH]; simpl.
  - intros Hin. exists host. split; [done | apply hostglob_matches_refl].
  - destruct (hm_exact_match header) as [literal|]; [|done].
    destruct (String.eqb (hm_name header) ":authority"); [|done].
    destruct (existsb _ _) eqn:Hany.
    + intros ->%elem_of_singleton. by apply any_glob_matches.
    + intros Hin. by apply not_elem_of_empty in Hin.
Qed.

(** X3: with or without pruning, every host glob that [host_constraints]
    returns is matched by some glob of the base set: pruning narrows the
    base set and never adds hosts outside it. *)
Theorem host_constraints_covered (self : V2Route) (prune : bool) (host : string) :
  host ∈ host_constraints self prune →
  ∃ glob, glob ∈ base_hosts self ∧ hostglob_matches glob host = Some true.
Proof.
  unfold host_constraints. destruct prune.
  - apply scan_authority_covered.
  - intros Hin. exists host. split; [done | apply hostglob_matches_refl].
Qed.

Lemma scan_authority_wildcard (ret : gset string) (match_headers : list HeaderMatcher) :
  "*" ∈ ret →
  scan_authority ret match_headers = ret
  ∨ ∃ literal, scan_authority ret match_headers = {[ literal ]}.
Proof.
  intros Hstar. induction match_headers as [|header rest IH]; simpl; [by left|].
  destruct (hm_exact_match header) as [literal|]; [|done].
  destruct (String.eqb (hm_name header) ":authority"); [|done].
  assert (existsb (λ glob, is_true_result (hostglob_matches glob literal))
                  (elements ret) = true) as ->; [|by eauto].
  apply any_glob_matches. by exists "*".
Qed.

Lemma base_hosts_no_sni (self : V2Route) :
  r_sni self = None → "*" ∈ base_hosts self.
Proof.
  unfold base_hosts. intros ->. apply elem_of_list_to_set, list_elem_of_singleton. done.
Qed.

(** X4: a route without SNI information, or whose base set contains
    ["*"], is never pruned away: the result, with or without pruning, is the
    base set or a single literal, and it is not empty. *)
Theorem host_constraints_wildcard (self : V2Route) (prune : bool) :
  r_sni self = None ∨ "*" ∈ base_hosts self →
  (host_constraints self prune = base_hosts self
   ∨ ∃ literal, host_constraints self prune = {[ literal ]})
  ∧ host_constraints self prune ≠ ∅.
Proof.
  intros Hcase.
  assert ("*" ∈ base_hosts self) as Hstar.
  { destruct Hcase as [Hnone|Hstar]; [by apply base_hosts_no_sni | done]. }
  assert (host_constraints self prune = base_hosts self
          ∨ ∃ literal, host_constraints self prune = {[ literal ]}) as Hcases.
  { unfold host_constraints. destruct prune; [|by left].
    by apply scan_authority_wildcard. }
  split; [done|].
  destruct Hcases as [->|[literal ->]].
  - intros Hempty. rewrite Hempty in Hstar. by apply not_elem_of_empty in Hstar.
  - intros Hempty.
    assert (literal ∈ ({[ literal ]} : gset string)) as Hin by by apply elem_of_singleton.
    rewrite Hempty in Hin. by apply not_elem_of_empty in Hin.
Qed.

(** ** More of what a constructed route is made of *)

Lemma build_match_more (config : V2Config) (group : IRHTTPMappingGroup)
    (mapping : IRBaseMapping) (precedence : option Z) (match_ : Match) :
  build_match config group mapping precedence = Ok match_ →
  mt_path match_ =
    (if String.eqb (EnvoyRoute group) "prefix" then None
     else if String.eqb (EnvoyRoute group) "path"
          then Some (route_prefix_of group mapping) else None)
  ∧ mt_headers match_ =
      (if (0 <? length (generate_headers config group))%nat
       then Some (generate_headers config group) else None)
  ∧ mt_query_parameters match_ =
      (if (0 <? length (generate_query_parameters config group))%nat
       then Some (generate_query_parameters config group) else None)
  ∧ mt_case_sensitive match_ = case_sensitive_of group mapping.
Proof.
  unfold build_match. intros Hm.
  apply bind_Ok in Hm as (rf & Hrf & Hm).
  injection Hm as <-. by simpl.
Qed.

Lemma V2Route_init_more (config : V2Config) (group : IRHTTPMappingGroup)
    (mapping : IRBaseMapping) (art : V2Route) :
  V2Route_init config group mapping = Ok art →
  r_per_filter_config art = build_per_filter_config mapping
  ∧ build_headers_to_add (g_add_request_headers group)
    = Ok (r_request_headers_to_add art)
  ∧ build_headers_to_add (g_add_response_headers group)
    = Ok (r_response_headers_to_add art)
  ∧ r_request_headers_to_remove art
    = build_headers_to_remove (g_remove_request_headers group)
  ∧ r_response_headers_to_remove art
    = build_headers_to_remove (g_remove_response_headers group).
Proof.
  unfold V2Route_init. intros Hinit.
  apply bind_Ok in Hinit as (sni & Hsni & Hinit).
  apply bind_Ok in Hinit as (match_ & Hmatch & Hinit).
  apply bind_Ok in Hinit as (req & Hreq & Hinit).
  apply bind_Ok in Hinit as (resp & Hresp & Hinit).
  destruct (g_host_redirect group) as [target|].
  - injection Hinit as <-. by simpl.
  - apply bind_Ok in Hinit as (route & Hroute & Hinit).
    injection Hinit as <-. by simpl.
Qed.

Lemma build_route_more (config : V2Config) (group : IRHTTPMappingGroup)
    (mapping : IRBaseMapping) (route : Route) :
  build_route config group mapping = Ok route →
  (∃ regex_rewrite,
     generate_regex_rewrite config group = Ok regex_rewrite
     ∧ rt_regex_rewrite route =
         (if (0 <? regex_rewrite_len regex_rewrite)%nat
          then Some regex_rewrite else None)
     ∧ rt_prefix_rewrite route = prefix_rewrite_of regex_rewrite mapping)
  ∧ rt_rate_limits route = build_rate_limits config group
  ∧ rt_upgrade_configs route = build_upgrade_configs group
  ∧ build_mirror_policy group = Ok (rt_request_mirror_policy route)
  ∧ rt_host_rewrite route = m_host_rewrite mapping
  ∧ rt_auto_host_rewrite route = m_auto_host_rewrite mapping
  ∧ rt_priority route = g_priority group.
Proof.
  unfold build_route. intros Hr.
  apply bind_Ok in Hr as (timeout & Htimeout & Hr).
  apply bind_Ok in Hr as (cluster & Hcluster & Hr).
  apply bind_Ok in Hr as (idle_timeout & Hidle & Hr).
  apply bind_Ok in Hr as (regex_rewrite & Hrw & Hr).
  apply bind_Ok in Hr as (mirror & Hmirror & Hr).
  injection Hr as <-. simpl. eauto 10.
Qed.

Lemma match_headers_of_init (config : V2Config) (group : IRHTTPMappingGroup)
    (mapping : IRBaseMapping) (art : V2Route) :
  V2Route_init config group mapping = Ok art →
  match_headers_of art = generate_headers config group.
Proof.
  intros Hinit.
  apply V2Route_init_Ok in Hinit as (_ & _ & _ & (match_ & Hmatch & Hart) & _).
  apply build_match_more in Hmatch as (_ & Hheaders & _).
  unfold match_headers_of. rewrite Hart, Hheaders.
  by destruct (generate_headers config group).
Qed.

(** X5: a regex match on [:authority] is not looked at (as the docstring of
    [host_constraints] says): on a route built from a group whose
    [:authority] headers are all regex headers, pruning returns the same set
    as no pruning. *)
Theorem regex_authority_never_prunes (config : V2Config)
    (group : IRHTTPMappingGroup) (mapping : IRBaseMapping) (art : V2Route) :
  V2Route_init config group mapping = Ok art →
  (∀ group_header, group_header ∈ g_headers group →
     gh_name group_header = ":authority" → gh_regex group_header = true) →
  host_constraints art true = host_constraints art false.
Proof.
  intros Hinit Hregex. unfold host_constraints.
  rewrite (match_headers_of_init _ _ _ _ Hinit).
  rewrite <- (app_nil_r (generate_headers config group)).
  rewrite scan_authority_skip; [done|].
  unfold generate_headers. apply Forall_forall. intros header Hin.
  apply list_elem_of_In, in_map_iff in Hin as (group_header & <- & Hin%list_elem_of_In).
  intros [Hname Hexact].
  destruct (gh_regex group_header) eqn:Hre; simpl in *.
  - by destruct Hexact.
  - specialize (Hregex group_header Hin Hname). congruence.
Qed.

(** X6: the base set of a constructed route comes from the group: the hosts
    of its TLS context when ['sni'] is truthy, the lone wildcard otherwise. *)
Theorem constructed_base_hosts (config : V2Config) (group : IRHTTPMappingGroup)
    (mapping : IRBaseMapping) (art : V2Route) :
  V2Route_init config group mapping = Ok art →
  (g_sni group = Some true →
     ∃ tls_context, g_tls_context group = Some tls_context
                    ∧ host_constraints art false = list_to_set (tls_hosts tls_context))
  ∧ ((g_sni group = None ∨ g_sni group = Some false) →
       host_constraints art false = {[ "*" ]}).
Proof.
  intros Hinit.
  apply V2Route_init_Ok in Hinit as (_ & _ & Hsni & _).
  unfold stash_sni in Hsni. unfold host_constraints, base_hosts. split.
  - intros Htrue. rewrite Htrue in Hsni. simpl in Hsni.
    apply bind_Ok in Hsni as (tls_context & Htls & Hsni).
    destruct (g_tls_context group) as [tls|]; [|done].
    injection Htls as ->. injection Hsni as <-. by exists tls_context.
  - intros Hfalse.
    assert (default false (g_sni group) = false) as Hd by by destruct Hfalse as [->| ->].
    rewrite Hd in Hsni. injection Hsni as <-.
    apply set_eq. intros host.
    rewrite elem_of_list_to_set, list_elem_of_singleton, elem_of_singleton. done.
Qed.

(** ** The regex safety policy, beyond the default *)

Lemma regex_matcher_size (config : V2Config) (regex : option string) (key : string)
    (safe_key re_type : option string) :
  size (regex_matcher config regex key safe_key re_type) = 1%nat.
Proof.
  unfold regex_matcher.
  destruct (negb _); apply map_size_singleton.
Qed.

(** X7: whatever its arguments, [regex_matcher] returns exactly one field.
    The field holds the raw pattern under [key] only when the effective type
    is exactly ["unsafe"]; any other type, known or not, gives the bounded
    matcher, keyed by [safe_key] when that is a non-empty string and by
    ["safe_" + key] when it is [None] or empty. *)
Theorem regex_matcher_one_field (config : V2Config) (regex : option string)
    (key : string) (safe_key re_type : option string) :
  size (regex_matcher config regex key safe_key re_type) = 1%nat
  ∧ ∀ k v, regex_matcher config regex key safe_key re_type !! k = Some v →
      (effective_re_type config re_type = "unsafe" ∧ k = key ∧ v = Raw regex)
      ∨ (effective_re_type config re_type ≠ "unsafe"
         ∧ v = Bounded {| google_re2 :=
                            {| max_program_size :=
                                 default 200 (am_regex_max_size
                                                (ambassador_module (ir config))) |};
                          sr_regex := regex |}
         ∧ ((safe_key = None ∨ safe_key = Some EmptyString) → k = "safe_" +:+ key)
         ∧ (∀ k', safe_key = Some k' → k' ≠ EmptyString → k = k')).
Proof.
  split; [apply regex_matcher_size|].
  intros k v. unfold regex_matcher.
  destruct (String.eqb_spec (effective_re_type config re_type) "unsafe") as [Hu|Hu];
    simpl; intros [<- <-]%lookup_singleton_Some.
  - by left.
  - right. split; [done|]. split; [done|]. split.
    + by intros [->| ->].
    + intros k' -> Hne. by destruct (String.eqb_spec k' EmptyString).
Qed.

(** ** Rewrites *)

Lemma generate_regex_rewrite_Some (config : V2Config) (group : IRHTTPMappingGroup)
    (grr : GroupRegexRewrite) :
  g_regex_rewrite group = Some grr →
  generate_regex_rewrite config group =
    Ok {| rw_matcher_fields :=
            match rr_pattern grr with
            | Some pattern =>
                {[ "pattern" :=
                     Bounded {| google_re2 :=
                                  {| max_program_size :=
                                       default 200 (am_regex_max_size
                                                      (ambassador_module (ir config))) |};
                                sr_regex := Some pattern |} ]}
            | None => ∅
            end;
          rw_substitution := rr_substitution grr |}.
Proof.
  unfold generate_regex_rewrite. intros ->. simpl.
  destruct (rr_pattern grr) as [pattern|]; [|done].
  unfold regex_matcher. simpl. by rewrite (right_id_L ∅ (∪)).
Qed.

Lemma route_of_init (config : V2Config) (group : IRHTTPMappingGroup)
    (mapping : IRBaseMapping) (art : V2Route) (route : Route) :
  V2Route_init config group mapping = Ok art →
  r_route art = Some route →
  g_host_redirect group = None ∧ build_route config group mapping = Ok route.
Proof.
  intros Hinit Hroute.
  apply V2Route_init_Ok in Hinit as (_ & _ & _ & _ & Hbranch).
  destruct (g_host_redirect group) as [target|].
  - destruct Hbranch as [_ Hnone]. congruence.
  - destruct Hbranch as (_ & route' & Hbuild & Hroute'). split; [done|]. congruence.
Qed.

(** X8: a rewrite pattern is always emitted as a bounded matcher under the
    key ["pattern"], whatever regex type is configured (the source: "should
    never ever be unsafe"), together with the substitution; and no
    [prefix_rewrite] is emitted beside it. *)
Theorem regex_rewrite_always_bounded (config : V2Config)
    (group : IRHTTPMappingGroup) (mapping : IRBaseMapping) (art : V2Route)
    (route : Route) (grr : GroupRegexRewrite) (pattern : string) :
  V2Route_init config group mapping = Ok art →
  r_route art = Some route →
  g_regex_rewrite group = Some grr →
  rr_pattern grr = Some pattern →
  rt_regex_rewrite route =
    Some {| rw_matcher_fields :=
              {[ "pattern" :=
                   Bounded {| google_re2 :=
                                {| max_program_size :=
                                     default 200 (am_regex_max_size
                                                    (ambassador_module (ir config))) |};
                              sr_regex := Some pattern |} ]};
            rw_substitution := rr_substitution grr |}
  ∧ rt_prefix_rewrite route = None.
Proof.
  intros Hinit Hroute Hgrr Hpattern.
  destruct (route_of_init _ _ _ _ _ Hinit Hroute) as [_ Hbuild].
  apply build_route_more in Hbuild as ((rw & Hrw & -> & ->) & _).
  rewrite (generate_regex_rewrite_Some _ _ _ Hgrr), Hpattern in Hrw.
  injection Hrw as <-.
  unfold prefix_rewrite_of, regex_rewrite_len. simpl.
  by rewrite map_size_singleton.
Qed.

(** X9: a route never carries both rewrites. A [prefix_rewrite] is the
    mapping's own non-empty ['rewrite'], and is only there when the group's
    ['regex_rewrite'] has neither pattern nor substitution; a
    [regex_rewrite] is only there when it has one of them. *)
Theorem rewrites_exclusive (config : V2Config) (group : IRHTTPMappingGroup)
    (mapping : IRBaseMapping) (art : V2Route) (route : Route) :
  V2Route_init config group mapping = Ok art →
  r_route art = Some route →
  (rt_regex_rewrite route = None ∨ rt_prefix_rewrite route = None)
  ∧ (∀ rewrite, rt_prefix_rewrite route = Some rewrite →
       m_rewrite mapping = Some rewrite ∧ rewrite ≠ EmptyString
       ∧ g_regex_rewrite group
         = Some {| rr_pattern := None; rr_substitution := None |})
  ∧ (∀ regex_rewrite, rt_regex_rewrite route = Some regex_rewrite →
       ∃ grr, g_regex_rewrite group = Some grr
              ∧ (is_Some (rr_pattern grr) ∨ is_Some (rr_substitution grr))
              ∧ rw_substitution regex_rewrite = rr_substitution grr).
Proof.
  intros Hinit Hroute.
  destruct (route_of_init _ _ _ _ _ Hinit Hroute) as [_ Hbuild].
  apply build_route_more in Hbuild as ((rw & Hrw & -> & ->) & _).
  destruct (g_regex_rewrite group) as [grr|] eqn:Hgrr.
  2: { by rewrite generate_regex_rewrite_absent in Hrw. }
  rewrite (generate_regex_rewrite_Some _ _ _ Hgrr) in Hrw. injection Hrw as <-.
  unfold prefix_rewrite_of, regex_rewrite_len. simpl.
  destruct grr as [[pattern|] [substitution|]]; simpl;
    rewrite ?map_size_singleton, ?map_size_empty; simpl.
  - split; [by right|]. split; [done|]. intros ? [= <-]. eexists. eauto.
  - split; [by right|]. split; [done|]. intros ? [= <-]. eexists. eauto.
  - split; [by right|]. split; [done|]. intros ? [= <-]. eexists. eauto.
  - split; [by left|]. split; [|done].
    intros rewrite Hrw.
    destruct (m_rewrite mapping) as [s|]; [|done].
    destruct (String.eqb_spec s EmptyString); [done|].
    injection Hrw as <-. done.
Qed.

(** ** Shape of a constructed route *)

(** X10: a constructed route has a redirect or a route clause, never both
    and never neither: the redirect exactly when the group has a
    ['host_redirect'], naming its service; its [path_redirect] is the
    target's when that is a non-empty string, and is left out when the
    target has none or an empty one. *)
Theorem redirect_or_route (config : V2Config) (group : IRHTTPMappingGroup)
    (mapping : IRBaseMapping) (art : V2Route) :
  V2Route_init config group mapping = Ok art →
  (is_Some (r_redirect art) ↔ is_Some (g_host_redirect group))
  ∧ (is_Some (r_route art) ↔ g_host_redirect group = None)
  ∧ (is_Some (r_redirect art) ↔ r_route art = None)
  ∧ (∀ redirect, r_redirect art = Some redirect →
       ∃ target, g_host_redirect group = Some target
                 ∧ host_redirect redirect = hr_service target
                 ∧ path_redirect redirect ≠ Some EmptyString
                 ∧ (∀ p, hr_path_redirect target = Some p → p ≠ EmptyString →
                      path_redirect redirect = Some p)
                 ∧ (hr_path_redirect target = None
                    ∨ hr_path_redirect target = Some EmptyString →
                    path_redirect redirect = None)).
Proof.
  intros Hinit.
  apply V2Route_init_Ok in Hinit as (_ & _ & _ & _ & Hbranch).
  destruct (g_host_redirect group) as [target|].
  - destruct Hbranch as [-> ->]. split_and!.
    + done.
    + split; [by intros [? ?] | done].
    + done.
    + intros redirect [= <-]. exists target. unfold build_redirect. simpl.
      split; [done|]. split; [done|]. split; [|split].
      * destruct (hr_path_redirect target) as [p|]; [|done].
        destruct (String.eqb_spec p EmptyString); [done | congruence].
      * intros p -> Hne. by destruct (String.eqb_spec p EmptyString).
      * by intros [-> | ->].
  - destruct Hbranch as (-> & route & _ & ->). split_and!.
    + split; by intros [? ?].
    + done.
    + split; [by intros [? ?] | done].
    + done.
Qed.

(** X11: the match of a constructed route has exactly one path specifier:
    [prefix], or [path], or the single field of a regex matcher. *)
Theorem one_path_specifier (config : V2Config) (group : IRHTTPMappingGroup)
    (mapping : IRBaseMapping) (art : V2Route) (match_ : Match) :
  V2Route_init config group mapping = Ok art →
  r_match art = Some match_ →
  (present (mt_prefix match_) + present (mt_path match_)
   + size (mt_matcher_fields match_) = 1)%nat
  ∧ (is_Some (mt_prefix match_) ↔ EnvoyRoute group = "prefix")
  ∧ (is_Some (mt_path match_) ↔ EnvoyRoute group = "path").
Proof.
  intros Hinit Hmatch.
  apply V2Route_init_Ok in Hinit as (_ & _ & _ & (match' & Hbuild & Hart) & _).
  assert (match' = match_) as -> by congruence.
  pose proof (build_match_Ok _ _ _ _ _ Hbuild) as (_ & -> & ->).
  pose proof (build_match_more _ _ _ _ _ Hbuild) as (-> & _).
  destruct (String.eqb_spec (EnvoyRoute group) "prefix") as [Hp|Hp].
  { rewrite Hp. simpl. repeat split; try done; by intros [? ?]. }
  destruct (String.eqb_spec (EnvoyRoute group) "path") as [Hq|Hq].
  { simpl. repeat split; try done; by intros [? ?]. }
  simpl. split.
  - destruct (_ && _); [apply map_size_singleton | apply regex_matcher_size].
  - split; split; try done; by intros [? ?].
Qed.

Lemma generate_headers_to_add_length (header_dict : list (string * Value))
    (headers : list HeaderToAdd) :
  generate_headers_to_add header_dict = Ok headers →
  map (λ h, hk_key (ha_header h)) headers = map fst header_dict.
Proof.
  revert headers. induction header_dict as [|[k v] rest IH]; intros headers; simpl.
  - by intros [= <-].
  - intros Hgen.
    apply bind_Ok in Hgen as (h & Hh & Hgen).
    apply bind_Ok in Hgen as (hs & Hhs & Hgen).
    injection Hgen as <-. simpl. rewrite (IH _ Hhs). f_equal.
    unfold header_to_add in Hh. destruct v; try by injection Hh as <-.
    apply bind_Ok in Hh as (value & _ & Hh). by injection Hh as <-.
Qed.

Lemma build_headers_to_add_nonempty (headers_to_add : option (list (string * Value)))
    (field : option (list HeaderToAdd)) :
  build_headers_to_add headers_to_add = Ok field → field ≠ Some [].
Proof.
  unfold build_headers_to_add.
  destruct headers_to_add as [[|h rest]|]; try by intros [= <-].
  intros Hb. apply bind_Ok in Hb as (hs & Hhs & Hb). injection Hb as <-.
  apply generate_headers_to_add_length in Hhs. by destruct hs.
Qed.

Lemma build_headers_to_remove_nonempty (headers_to_remove : option Value) :
  build_headers_to_remove headers_to_remove ≠ Some [].
Proof.
  unfold build_headers_to_remove.
  destruct headers_to_remove as [v|]; [|done].
  destruct v as [|b|n|s|[|x l]|[|x d]]; simpl; try done; by repeat case_match.
Qed.

(** X12: no list field of a constructed route is an empty list: header and
    query-parameter matchers, headers to add and to remove, hash policies,
    rate limits and upgrade configurations are left out instead. *)
Theorem no_empty_lists (config : V2Config) (group : IRHTTPMappingGroup)
    (mapping : IRBaseMapping) (art : V2Route) :
  V2Route_init config group mapping = Ok art →
  (∀ match_, r_match art = Some match_ →
     mt_headers match_ ≠ Some [] ∧ mt_query_parameters match_ ≠ Some [])
  ∧ r_request_headers_to_add art ≠ Some []
  ∧ r_response_headers_to_add art ≠ Some []
  ∧ r_request_headers_to_remove art ≠ Some []
  ∧ r_response_headers_to_remove art ≠ Some []
  ∧ (∀ route, r_route art = Some route →
       rt_hash_policy route ≠ Some []
       ∧ rt_rate_limits route ≠ Some []
       ∧ rt_upgrade_configs route ≠ Some []).
Proof.
  intros Hinit.
  pose proof (V2Route_init_more _ _ _ _ Hinit) as (_ & Hreq & Hresp & -> & ->).
  split; [|split; [|split; [|split; [|split]]]].
  - intros match_ Hmatch.
    pose proof (V2Route_init_Ok _ _ _ _ Hinit)
      as (_ & _ & _ & (match' & Hbuild & Hart) & _).
    assert (match' = match_) as -> by congruence.
    apply build_match_more in Hbuild as (_ & -> & -> & _).
    split.
    + by destruct (generate_headers config group).
    + by destruct (generate_query_parameters config group).
  - by eapply build_headers_to_add_nonempty.
  - by eapply build_headers_to_add_nonempty.
  - apply build_headers_to_remove_nonempty.
  - apply build_headers_to_remove_nonempty.
  - intros route Hroute.
    destruct (route_of_init _ _ _ _ _ Hinit Hroute) as [_ Hbuild].
    pose proof (build_route_Ok _ _ _ _ Hbuild) as (_ & _ & _ & _ & ->).
    pose proof (build_route_more _ _ _ _ Hbuild) as (_ & -> & -> & _).
    split; [|split].
    + by destruct (0 <? _)%nat.
    + unfold build_rate_limits.
      destruct (ratelimit (ir config)) as [rlsvc|]; [|done].
      destruct (g_labels group) as [labels|]; [|done].
      by destruct (omap _ _).
    + unfold build_upgrade_configs.
      by destruct (g_allow_upgrade group) as [[|proto protos]|].
Qed.

(** ** Header and query-parameter matchers *)


(** X14: [generate_query_parameters] gives one matcher per query parameter
    of the group, in order and under the same name, each with exactly one of
    [string_match] and [present_match]; [present_match] (always [True]) is
    used exactly for a parameter that is not a regex and has no value. *)
Theorem generate_query_parameters_one_constraint (config : V2Config)
    (group : IRHTTPMappingGroup) :
  map qm_name (generate_query_parameters config group)
  = map gq_name (g_query_parameters group)
  ∧ Forall2 (λ group_parameter parameter,
               (present (qm_string_match parameter)
                + present (qm_present_match parameter) = 1)%nat
               ∧ (qm_present_match parameter = Some true
                  ↔ gq_regex group_parameter = false
                    ∧ gq_value group_parameter = None)
               ∧ qm_present_match parameter ≠ Some false
               ∧ (∀ value, gq_regex group_parameter = false →
                    gq_value group_parameter = Some value →
                    qm_string_match parameter = Some (SMExact value)))
            (g_query_parameters group) (generate_query_parameters config group).
Proof.
  unfold generate_query_parameters.
  induction (g_query_parameters group) as [|gq rest [IHnames IHall]]; [done|].
  simpl. split.
  { by destruct (gq_regex gq), (gq_value gq); simpl; f_equal. }
  constructor; [|done].
  destruct (gq_regex gq), (gq_value gq) as [value|]; simpl;
    (split_and!; [done | split; [done | intros [? ?]; congruence] | done
                 | intros; congruence]).
Qed.

(** ** Headers to add *)

Lemma header_to_add_Ok (k : string) (v : Value) :
  (∃ header, header_to_add k v = Ok header)
  ↔ ∀ fields, v = VDict fields → is_Some (dict_get "value" fields).
Proof.
  unfold header_to_add. destruct v as [| | | | |fields]; try (split; [done | by eauto]).
  destruct (dict_get "value" fields) as [value|] eqn:Hvalue; simpl.
  - split; [|by eauto]. intros _ fields' [= <-]. by rewrite Hvalue.
  - split; [by intros [? ?] |]. intros Hv.
    destruct (Hv fields eq_refl) as [? ?]. congruence.
Qed.

Lemma generate_headers_to_add_Ok (header_dict : list (string * Value)) :
  (∃ headers, generate_headers_to_add header_dict = Ok headers)
  ↔ ∀ k fields, (k, VDict fields) ∈ header_dict →
      is_Some (dict_get "value" fields).
Proof.
  induction header_dict as [|[k v] rest IH]; simpl.
  { split; [|by eauto]. intros _ k fields Hin. by apply elem_of_nil in Hin. }
  split.
  - intros [headers Hgen] k' fields Hin.
    apply bind_Ok in Hgen as (h & Hh & Hgen).
    apply bind_Ok in Hgen as (hs & Hhs & _).
    apply elem_of_cons in Hin as [[= -> <-]|Hin].
    + by apply (proj1 (header_to_add_Ok k (VDict fields))); eauto.
    + apply (proj1 IH (ex_intro _ hs Hhs) k' fields Hin).
  - intros Hall.
    destruct (proj2 (header_to_add_Ok k v)) as [h ->].
    { intros fields ->. apply (Hall k). by left. }
    destruct (proj2 IH) as [hs ->].
    { intros k' fields Hin. apply (Hall k'). by right. }
    simpl. eauto.
Qed.

(** X15: [generate_headers_to_add] fails only with [KeyError], and exactly
    when some structured value has no ['value'] key. When it succeeds the
    keys come out once each in the order of the dictionary, and a value that
    is not a dictionary is added as it is with [append] set. *)
Theorem generate_headers_to_add_errors (header_dict : list (string * Value)) :
  ((∃ headers, generate_headers_to_add header_dict = Ok headers)
   ↔ ∀ k fields, (k, VDict fields) ∈ header_dict →
       is_Some (dict_get "value" fields))
  ∧ (∀ e, generate_headers_to_add header_dict = Raise e → e = KeyError)
  ∧ (∀ headers, generate_headers_to_add header_dict = Ok headers →
       map (λ h, hk_key (ha_header h)) headers = map fst header_dict
       ∧ ∀ k v, (k, v) ∈ header_dict → (∀ fields, v ≠ VDict fields) →
           {| ha_header := {| hk_key := k; hk_value := v |}; ha_append := true |}
           ∈ headers).
Proof.
  split; [|split].
  - apply generate_headers_to_add_Ok.
  - induction header_dict as [|[k v] rest IH]; simpl; [done|].
    intros e. destruct (header_to_add k v) as [h|e'] eqn:Hh; simpl.
    + destruct (generate_headers_to_add rest) as [hs|e'']; simpl; [done|].
      apply IH.
    + intros [= <-]. unfold header_to_add in Hh.
      destruct v as [| | | | |fields]; try done.
      destruct (dict_get "value" fields); simpl in Hh; congruence.
  - intros headers Hgen. split; [by apply generate_headers_to_add_length|].
    revert headers Hgen.
    induction header_dict as [|[k' v'] rest IH]; intros headers Hgen k v Hin Hplain.
    { by apply elem_of_nil in Hin. }
    simpl in Hgen.
    apply bind_Ok in Hgen as (h & Hh & Hgen).
    apply bind_Ok in Hgen as (hs & Hhs & Hgen).
    injection Hgen as <-.
    apply elem_of_cons in Hin as [[= -> ->]|Hin].
    + unfold header_to_add in Hh.
      destruct v' as [| | | | |fields]; try (injection Hh as <-; by left).
      by destruct (Hplain fields).
    + right. by eapply IH.
Qed.

(** ** When the constructor succeeds *)

Lemma build_headers_to_add_Ok (headers_to_add : option (list (string * Value))) :
  (∃ field, build_headers_to_add headers_to_add = Ok field)
  ↔ ∀ k fields, (k, VDict fields) ∈ default [] headers_to_add →
      is_Some (dict_get "value" fields).
Proof.
  unfold build_headers_to_add.
  destruct headers_to_add as [[|h rest]|].
  - split; [|by eauto]. intros _ k fields Hin. by apply elem_of_nil in Hin.
  - change (default [] (Some (h :: rest))) with (h :: rest).
    rewrite <- generate_headers_to_add_Ok. split.
    + intros [field Hb]. apply bind_Ok in Hb as (hs & Hhs & _). eauto.
    + intros [hs ->]. simpl. eauto.
  - split; [|by eauto]. intros _ k fields Hin. by apply elem_of_nil in Hin.
Qed.

(** The printed timeouts on some inputs: the default, a value the double
    division rounds ([2^53 + 1] and [2^63] milliseconds), a negative one, and
    the first integer too large for a double. *)
Lemma format_seconds_examples :
  format_seconds 3000 = Ok "3.000s"
  ∧ format_seconds 0 = Ok "0.000s"
  ∧ format_seconds 1 = Ok "0.001s"
  ∧ format_seconds (-1500) = Ok "-1.500s"
  ∧ format_seconds (2 ^ 53 + 1) = Ok "9007199254740.992s"
  ∧ format_seconds (2 ^ 63) = Ok "9223372036854776.000s"
  ∧ (∃ text, format_seconds (2 ^ 1024 - 2 ^ 970 - 1) = Ok text)
  ∧ format_seconds (2 ^ 1024 - 2 ^ 970) = Raise OverflowError
  ∧ format_seconds (10 ^ 400) = Raise OverflowError.
Proof.
  split_and!; try by vm_compute.
  eexists. by vm_compute.
Qed.

(** The only exception of the formatting is the overflow of the conversion. *)
Lemma format_seconds_Raise (ms : Z) (e : exn) :
  format_seconds ms = Raise e →
  e = OverflowError ∧ 2 ^ 1024 - 2 ^ 970 <= Z.abs ms.
Proof.
  unfold format_seconds, float_of_int.
  destruct (2 ^ 1024 - 2 ^ 970 <=? Z.abs ms) eqn:Hle.
  - apply Z.leb_le in Hle. by intros [= <-].
  - destruct (Z.abs ms =? 0); discriminate.
Qed.

Lemma format_seconds_Ok (ms : Z) :
  (∃ text, format_seconds ms = Ok text) ↔ Z.abs ms < 2 ^ 1024 - 2 ^ 970.
Proof.
  unfold format_seconds, float_of_int.
  destruct (2 ^ 1024 - 2 ^ 970 <=? Z.abs ms) eqn:Hle.
  - apply Z.leb_le in Hle. split; [by intros [text Ht] | lia].
  - apply Z.leb_gt in Hle. split; [done|]. intros _.
    destruct (Z.abs ms =? 0); eexists; reflexivity.
Qed.

Lemma build_idle_timeout_Ok (mapping : IRBaseMapping) :
  (∃ idle_timeout, build_idle_timeout mapping = Ok idle_timeout)
  ↔ ∀ ms, m_idle_timeout_ms mapping = Some ms → Z.abs ms < 2 ^ 1024 - 2 ^ 970.
Proof.
  unfold build_idle_timeout.
  destruct (m_idle_timeout_ms mapping) as [ms|].
  - split.
    + intros [idle Hidle] ms' [= <-]. apply format_seconds_Ok.
      apply bind_Ok in Hidle as (text & Htext & _). eauto.
    + intros Hms. destruct (proj2 (format_seconds_Ok ms) (Hms ms eq_refl)) as [text ->].
      by eexists.
  - split; [done | by eauto].
Qed.

(** X16: the constructor returns a route exactly when nothing it
    dereferences is missing and no timeout overflows: a truthy ['sni'] comes
    with a ['tls_context']; a non-empty mapping has a cluster; every
    structured header to add has a ['value']; and, unless the group
    redirects, the mapping has a cluster, the group has a ['regex_rewrite'],
    its first shadow has a cluster, and the timeout (3000 without one) and
    the idle timeout, if any, are below [2^1024 - 2^970] in absolute value,
    from where on the division by [1000.0] raises [OverflowError]. *)
Theorem V2Route_init_succeeds_iff (config : V2Config) (group : IRHTTPMappingGroup)
    (mapping : IRBaseMapping) :
  (∃ art, V2Route_init config group mapping = Ok art)
  ↔ (g_sni group = Some true → is_Some (g_tls_context group))
    ∧ ((0 < mapping_len mapping)%nat → is_Some (m_cluster mapping))
    ∧ (∀ k fields, (k, VDict fields) ∈ default [] (g_add_request_headers group) →
         is_Some (dict_get "value" fields))
    ∧ (∀ k fields, (k, VDict fields) ∈ default [] (g_add_response_headers group) →
         is_Some (dict_get "value" fields))
    ∧ (g_host_redirect group = None →
         is_Some (m_cluster mapping)
         ∧ is_Some (g_regex_rewrite group)
         ∧ (∀ shadow rest, g_shadows group = Some (shadow :: rest) →
              is_Some (m_cluster shadow))
         ∧ Z.abs (default 3000 (m_timeout_ms mapping)) < 2 ^ 1024 - 2 ^ 970
         ∧ (∀ ms, m_idle_timeout_ms mapping = Some ms →
              Z.abs ms < 2 ^ 1024 - 2 ^ 970)).
Proof.
  split.
  - intros [art Hinit].
    pose proof (V2Route_init_Ok _ _ _ _ Hinit)
      as (_ & _ & Hsni & (match_ & Hmatch & _) & Hbranch).
    pose proof (V2Route_init_more _ _ _ _ Hinit) as (_ & Hreq & Hresp & _).
    split_and!.
    + intros Htrue. unfold stash_sni in Hsni. rewrite Htrue in Hsni. simpl in Hsni.
      by destruct (g_tls_context group).
    + intros Hlen. apply build_match_Ok in Hmatch as (Hrf & _).
      unfold runtime_fraction_of in Hrf.
      destruct (Nat.ltb_spec 0 (mapping_len mapping)); [|lia].
      by destruct (m_cluster mapping).
    + apply build_headers_to_add_Ok. eauto.
    + apply build_headers_to_add_Ok. eauto.
    + intros Hnone. rewrite Hnone in Hbranch.
      destruct Hbranch as (_ & route & Hbuild & _).
      pose proof (build_route_Ok _ _ _ _ Hbuild)
        as ((cluster & -> & _) & Htimeout & Hidle & _).
      pose proof (build_route_more _ _ _ _ Hbuild)
        as ((rw & Hrw & _) & _ & _ & Hmirror & _).
      split_and!.
      * done.
      * destruct (g_regex_rewrite group) eqn:Hgrr; [done|].
        by rewrite generate_regex_rewrite_absent in Hrw.
      * intros shadow rest Hshadows. unfold build_mirror_policy in Hmirror.
        rewrite Hshadows in Hmirror. by destruct (m_cluster shadow).
      * apply format_seconds_Ok. eauto.
      * apply build_idle_timeout_Ok. eauto.
  - intros (Hsni & Hcluster & Hreq & Hresp & Hroute).
    unfold V2Route_init.
    assert (∃ sni, stash_sni group = Ok sni) as [sni ->].
    { unfold stash_sni. destruct (g_sni group) as [[|]|]; simpl.
      - destruct (Hsni eq_refl) as [tls ->]. simpl. eauto.
      - eauto.
      - eauto. }
    assert (∃ match_, build_match config group mapping (stash_precedence group)
                      = Ok match_) as [match_ ->].
    { unfold build_match, runtime_fraction_of.
      destruct (Nat.ltb_spec 0 (mapping_len mapping)) as [Hlen|_]; simpl; [|by eauto].
      destruct (Hcluster Hlen) as [cluster ->]. simpl. eauto. }
    apply build_headers_to_add_Ok in Hreq as [req ->].
    apply build_headers_to_add_Ok in Hresp as [resp ->]. simpl.
    destruct (g_host_redirect group) as [target|]; [by eauto|].
    destruct (Hroute eq_refl)
      as ([cluster Hc] & [grr Hgrr] & Hshadow & Htimeout & Hidle).
    apply format_seconds_Ok in Htimeout as [timeout Htimeout].
    apply build_idle_timeout_Ok in Hidle as [idle_timeout Hidle].
    unfold build_route. rewrite Htimeout, Hc, Hidle. simpl.
    rewrite (generate_regex_rewrite_Some _ _ _ Hgrr). simpl.
    unfold build_mirror_policy.
    destruct (g_shadows group) as [[|shadow rest]|]; simpl; [by eauto | | by eauto].
    destruct (Hshadow shadow rest eq_refl) as [c ->]. simpl. eauto.
Qed.

(** ** The cache only grows *)

Lemma get_route_grows (config : V2Config) (st st' : CacheState) (key : string)
    (group : IRHTTPMappingGroup) (mapping : IRBaseMapping) (l : nat) :
  get_route config st key group mapping = Ok (l, st') →
  heap st `prefix_of` heap st'
  ∧ store st ⊆ store st'
  ∧ links st `prefix_of` links st'
  ∧ (length (heap st') ≤ S (length (heap st)))%nat
  ∧ store st' !! key = Some l
  ∧ ∃ route, heap st' !! l = Some (CRoute route).
Proof.
  intros Hget.
  destruct (cache_lookup st key) as [l0|] eqn:Hlookup.
  - unfold get_route in Hget. rewrite Hlookup in Hget.
    destruct (heap st !! l0) as [[route|k]|] eqn:Hheap; try done.
    injection Hget as <- <-. split_and!; try done; [lia | by eauto].
  - destruct (V2Route_init config group mapping) as [art|e] eqn:Hinit.
    2: { unfold get_route in Hget. by rewrite Hlookup, Hinit in Hget. }
    rewrite (get_route_miss _ _ _ _ _ _ Hlookup Hinit) in Hget.
    injection Hget as <- <-. simpl. split_and!.
    + by eexists.
    + by apply insert_subseteq.
    + by eexists.
    + rewrite length_app. simpl. lia.
    + by rewrite lookup_insert_eq.
    + eexists. rewrite lookup_app_r by lia. by rewrite Nat.sub_diag.
Qed.

(** X17: a request answered by [get_route] never removes or changes what
    the cache holds: the objects, the stored keys and the links of before
    are all still there, at most one object is new, and the answer is a
    route stored under the requested key. A cache whose entries all carry
    their key stays so, and the route answered carries the requested key. *)
Theorem get_route_only_adds (config : V2Config) (st st' : CacheState) (key : string)
    (group : IRHTTPMappingGroup) (mapping : IRBaseMapping) (l : nat) :
  get_route config st key group mapping = Ok (l, st') →
  heap st `prefix_of` heap st'
  ∧ store st ⊆ store st'
  ∧ links st `prefix_of` links st'
  ∧ (length (heap st') ≤ S (length (heap st)))%nat
  ∧ store st' !! key = Some l
  ∧ (cache_wf st →
       cache_wf st'
       ∧ ∃ route, heap st' !! l = Some (CRoute route)
                  ∧ r_cache_key route = Some key).
Proof.
  intros Hget.
  pose proof (get_route_grows _ _ _ _ _ _ _ Hget)
    as (Hheap & Hstore & Hlinks & Hlen & Hkey & route & Hroute).
  split_and!; try done.
  intros Hwf.
  destruct (get_route_wf _ _ _ _ _ _ _ Hwf Hget) as (Hwf' & _ & _).
  split; [done|].
  destruct (Hwf' _ _ Hkey) as (c & Hc & Hck).
  exists route. split; [done|]. rewrite Hroute in Hc. by injection Hc as <-.
Qed.

(** ** The compilation pass *)

Context {element_store : ElementStore}.

Lemma get_routes_app (config : V2Config) (st : CacheState) (a b : list Request) :
  get_routes config st (a ++ b) =
  match get_routes config st a with
  | Ok (la, st1) =>
      match get_routes config st1 b with
      | Ok (lb, st2) => Ok (la ++ lb, st2)
      | Raise e => Raise e
      end
  | Raise e => Raise e
  end.
Proof.
  revert st. induction a as [|rq a IH]; intros st; simpl.
  - by destruct (get_routes config st b) as [[lb st2]|e].
  - destruct (get_route config st (rq_key rq) (rq_group rq) (rq_mapping rq))
      as [[l st1]|e]; simpl; [|done].
    rewrite IH.
    destruct (get_routes config st1 a) as [[la st2]|e]; simpl; [|done].
    by destruct (get_routes config st2 b) as [[lb st3]|e].
Qed.

Lemma get_routes_length (config : V2Config) (requests : list Request) :
  ∀ st routes st',
    get_routes config st requests = Ok (routes, st') →
    length routes = length requests.
Proof.
  induction requests as [|rq rest IH]; intros st routes st' Hget; simpl in Hget.
  - by injection Hget as <- <-.
  - apply bind_Ok in Hget as ([l st1] & _ & Hget).
    apply bind_Ok in Hget as ([ls st2] & Htail & Hget).
    injection Hget as <- <-. simpl. f_equal. by eapply IH.
Qed.

Lemma saved_routes_app (a b : list Request) (la lb : list nat) :
  length la = length a →
  saved_routes (a ++ b) (la ++ lb) = saved_routes a la ++ saved_routes b lb.
Proof. intros Hlen. unfold saved_routes. by rewrite zip_with_app. Qed.

Lemma generate_mappings_requests (config : V2Config) (irgroup : IRHTTPMappingGroup)
    (mappings : list GroupMapping) :
  ∀ st,
    generate_mappings config st irgroup mappings =
    match get_routes config st (map (mapping_request irgroup) mappings) with
    | Ok (routes, st') =>
        Ok (saved_routes (map (mapping_request irgroup) mappings) routes, st')
    | Raise e => Raise e
    end.
Proof.
  induction mappings as [|mapping rest IH]; intros st; simpl; [done|].
  destruct (get_route config st (route_key irgroup (gm_cache_key mapping)) irgroup
              (gm_mapping mapping)) as [[l st1]|e]; simpl; [|done].
  rewrite IH.
  by destruct (get_routes config st1 (map (mapping_request irgroup) rest))
    as [[ls st2]|e].
Qed.

Lemma generate_group_requests (config : V2Config) (st : CacheState)
    (group : OrderedGroup) :
  has_mappings group →
  generate_group config st group =
  match get_routes config st (group_requests group) with
  | Ok (routes, st') => Ok (saved_routes (group_requests group) routes, st')
  | Raise e => Raise e
  end.
Proof.
  destruct group as [irgroup mappings|]; [|done].
  intros [ms ->]. unfold generate_group, group_requests.
  destruct (redirect_only irgroup (Some ms)); simpl.
  - destruct (get_route config st (route_key irgroup "hostredirect") irgroup
                empty_mapping) as [[l st1]|e]; simpl; [|done].
    rewrite generate_mappings_requests.
    by destruct (get_routes config st1 (map (mapping_request irgroup) ms))
      as [[ls st2]|e].
  - rewrite generate_mappings_requests.
    by destruct (get_routes config st (map (mapping_request irgroup) ms))
      as [[ls st2]|e].
Qed.

Lemma generate_group_has_mappings (config : V2Config) (st : CacheState)
    (group : OrderedGroup) (routes : list nat) (st' : CacheState) :
  generate_group config st group = Ok (routes, st') → has_mappings group.
Proof.
  destruct group as [irgroup [ms|]|]; [by intros _; exists ms | | done].
  unfold generate_group. intros Hgen.
  apply bind_Ok in Hgen as ([redirect_routes st1] & _ & Hgen). done.
Qed.

Lemma generate_has_mappings (config : V2Config) (ordered_groups : list OrderedGroup) :
  ∀ st routes st',
    generate config st ordered_groups = Ok (routes, st') →
    Forall has_mappings ordered_groups.
Proof.
  induction ordered_groups as [|group rest IH]; intros st routes st' Hgen;
    [done|]. simpl in Hgen.
  apply bind_Ok in Hgen as ([rs st1] & Hgroup & Hgen).
  apply bind_Ok in Hgen as ([more st2] & Hrest & _).
  constructor; [by eapply generate_group_has_mappings | by eapply IH].
Qed.

Lemma generate_requests_eq (config : V2Config) (ordered_groups : list OrderedGroup) :
  Forall has_mappings ordered_groups →
  ∀ st,
    generate config st ordered_groups =
    match get_routes config st (generate_requests ordered_groups) with
    | Ok (routes, st') =>
        Ok (saved_routes (generate_requests ordered_groups) routes, st')
    | Raise e => Raise e
    end.
Proof.
  induction 1 as [|group rest Hgroup _ IH]; intros st; [done|].
  simpl. rewrite generate_group_requests by done.
  rewrite get_routes_app.
  destruct (get_routes config st (group_requests group)) as [[la st1]|e] eqn:Ha;
    simpl; [|done].
  rewrite IH.
  destruct (get_routes config st1 (generate_requests rest)) as [[lb st2]|e];
    simpl; [|done].
  rewrite saved_routes_app; [done|]. by eapply get_routes_length.
Qed.

(** X18: [generate] is the sequence of [get_route] requests of its groups,
    in the order of the groups and, within a group, of the mappings (after
    the redirect-only request when the group redirects and has no mapping);
    groups of other kinds make no request. It fails when a request fails or
    when an HTTP group has no ['mappings']; otherwise [config.routes] is the
    answers in request order, each as [save_element] returned it. *)
Theorem generate_in_request_order (config : V2Config) (st : CacheState)
    (ordered_groups : list OrderedGroup) :
  (Forall has_mappings ordered_groups →
     generate config st ordered_groups =
     match get_routes config st (generate_requests ordered_groups) with
     | Ok (routes, st') =>
         Ok (saved_routes (generate_requests ordered_groups) routes, st')
     | Raise e => Raise e
     end)
  ∧ (∀ routes st',
       generate config st ordered_groups = Ok (routes, st') →
       Forall has_mappings ordered_groups
       ∧ length routes = length (generate_requests ordered_groups)).
Proof.
  split; [intros Hall; by apply generate_requests_eq|].
  intros routes st' Hgen.
  pose proof (generate_has_mappings _ _ _ _ _ Hgen) as Hall.
  split; [done|].
  rewrite (generate_requests_eq _ _ Hall) in Hgen.
  destruct (get_routes config st (generate_requests ordered_groups))
    as [[ls st1]|e] eqn:Hget; [|done].
  injection Hgen as <- <-.
  unfold saved_routes. rewrite length_zip_with.
  apply get_routes_length in Hget. lia.
Qed.

Lemma get_routes_grows (config : V2Config) (requests : list Request) :
  ∀ st routes st',
    get_routes config st requests = Ok (routes, st') →
    heap st `prefix_of` heap st'
    ∧ store st ⊆ store st'
    ∧ Forall2 (λ rq l, store st' !! rq_key rq = Some l
                       ∧ ∃ route, heap st' !! l = Some (CRoute route))
              requests routes.
Proof.
  induction requests as [|rq rest IH]; intros st routes st' Hget; simpl in Hget.
  - injection Hget as <- <-. by split_and!.
  - apply bind_Ok in Hget as ([l st1] & Hhead & Hget).
    apply bind_Ok in Hget as ([ls st2] & Htail & Hget).
    injection Hget as <- <-.
    apply get_route_grows in Hhead as (Hh1 & Hs1 & _ & _ & Hkey & route & Hroute).
    apply IH in Htail as (Hh2 & Hs2 & Hall).
    split_and!.
    + by etrans.
    + by etrans.
    + constructor; [|done]. split.
      * by eapply lookup_weaken.
      * exists route. by eapply prefix_lookup_Some.
Qed.

Lemma get_routes_replay (config : V2Config) (st : CacheState)
    (requests : list Request) (routes : list nat) :
  Forall2 (λ rq l, store st !! rq_key rq = Some l
                   ∧ ∃ route, heap st !! l = Some (CRoute route))
          requests routes →
  get_routes config st requests = Ok (routes, st).
Proof.
  induction 1 as [|rq l rest ls (Hkey & route & Hroute) _ IH]; [done|].
  simpl. rewrite (get_route_hit _ _ _ _ _ _ _ Hkey Hroute). simpl.
  by rewrite IH.
Qed.

(** X19: a pass that succeeded can be run again on the cache it left: every
    request is then answered from the cache, so the second pass returns the
    same routes in the same order and leaves the cache exactly as it was. *)
Theorem generate_again (config : V2Config) (st st' : CacheState)
    (ordered_groups : list OrderedGroup) (routes : list nat) :
  generate config st ordered_groups = Ok (routes, st') →
  generate config st' ordered_groups = Ok (routes, st').
Proof.
  intros Hgen.
  pose proof (generate_has_mappings _ _ _ _ _ Hgen) as Hall.
  rewrite (generate_requests_eq _ _ Hall) in Hgen.
  rewrite (generate_requests_eq _ _ Hall).
  destruct (get_routes config st (generate_requests ordered_groups))
    as [[ls st1]|e] eqn:Hget; [|done].
  injection Hgen as <- <-.
  apply get_routes_grows in Hget as (_ & _ & Hall').
  by rewrite (get_routes_replay _ _ _ _ Hall').
Qed.

(** X20: after a pass that started from a cache whose entries all carry
    their key, every key the pass asked for is in the cache, bound to a
    route that carries this key; what the cache held before is still
    there. *)
Theorem generate_fills_cache (config : V2Config) (st st' : CacheState)
    (ordered_groups : list OrderedGroup) (routes : list nat) :
  cache_wf st →
  generate config st ordered_groups = Ok (routes, st') →
  cache_wf st'
  ∧ heap st `prefix_of` heap st'
  ∧ store st ⊆ store st'
  ∧ ∀ rq, rq ∈ generate_requests ordered_groups →
      ∃ l route, store st' !! rq_key rq = Some l
                 ∧ heap st' !! l = Some (CRoute route)
                 ∧ r_cache_key route = Some (rq_key rq).
Proof.
  intros Hwf Hgen.
  pose proof (generate_has_mappings _ _ _ _ _ Hgen) as Hall.
  rewrite (generate_requests_eq _ _ Hall) in Hgen.
  destruct (get_routes config st (generate_requests ordered_groups))
    as [[ls st1]|e] eqn:Hget; [|done].
  injection Hgen as <- <-.
  pose proof (get_routes_wf _ _ _ _ _ Hwf Hget) as (Hwf' & _ & _).
  pose proof (get_routes_grows _ _ _ _ _ Hget) as (Hheap & Hstore & Hall').
  split_and!; try done.
  intros rq Hin.
  apply list_elem_of_lookup in Hin as [i Hi].
  destruct (Forall2_lookup_l _ _ _ _ _ Hall' Hi) as (l & _ & Hkey & route & Hroute).
  exists l, route. split_and!; try done.
  destruct (Hwf' _ _ Hkey) as (c & Hc & Hck).
  rewrite Hroute in Hc. by injection Hc as <-.
Qed.

End Properties.

(** * The properties on the sample inputs *)

#[local] Existing Instances Sample.collaborators Sample.translators.

Lemma regex_matcher_modes_witness :
  regex_matcher Sample.config (Some "^/x") "regex" None None =
    {[ "safe_regex" := Bounded {| google_re2 := {| max_program_size := 200 |};
                                  sr_regex := Some "^/x" |} ]}
  ∧ regex_matcher Sample.config_unsafe (Some "^/x") "regex" None None =
      {[ "regex" := Raw (Some "^/x") ]}
  ∧ regex_matcher Sample.config (Some "^/x") "regex" None (Some "unsafe") =
      {[ "regex" := Raw (Some "^/x") ]}.
Proof.
  destruct (regex_matcher_modes Sample.config (Some "^/x") "regex")
    as (Hsafe & Hdefault & Hoverride).
  destruct (regex_matcher_modes Sample.config_unsafe (Some "^/x") "regex")
    as (_ & _ & Hunsafe).
  split; [|split].
  - apply Hdefault; reflexivity.
  - apply Hunsafe. reflexivity.
  - apply Hoverride. reflexivity.
Defined.

Lemma sentinel_forces_safe_regex_witness :
  (∃ art match_,
     V2Route_init Sample.config_unsafe
       (Sample.group "^/group.*" (Some (-1000000)) (Some Sample.no_regex_rewrite)
          None None)
       (Sample.mapping "^/mapping.*" 100 None) = Ok art
     ∧ r_match art = Some match_
     ∧ mt_matcher_fields match_ !! "safe_regex" =
         Some (Bounded {| google_re2 := {| max_program_size := 200 |};
                          sr_regex := Some "^/mapping.*" |}))
  ∧ (∃ art match_,
       V2Route_init Sample.config_unsafe
         (Sample.group "^/group.*" (Some (-1000000)) None None
            (Some {| hr_service := "elsewhere"; hr_path_redirect := None |}))
         empty_mapping = Ok art
       ∧ r_match art = Some match_
       ∧ mt_matcher_fields match_ !! "safe_regex" =
           Some (Bounded {| google_re2 := {| max_program_size := 200 |};
                            sr_regex := Some "^/group.*" |})).
Proof.
  split.
  - set (group := Sample.group "^/group.*" (Some (-1000000))
                    (Some Sample.no_regex_rewrite) None None).
    set (mapping := Sample.mapping "^/mapping.*" 100 None).
    assert (EnvoyRoute group ≠ "prefix") as Hprefix by (vm_compute; discriminate).
    assert (EnvoyRoute group ≠ "path") as Hpath by (vm_compute; discriminate).
    destruct (V2Route_init Sample.config_unsafe group mapping) as [art|e] eqn:Hinit;
      [|vm_compute in Hinit; discriminate Hinit].
    assert (r_precedence art = Some (-1000000)) as Hprec.
    { vm_compute in Hinit. by injection Hinit as <-. }
    destruct (sentinel_forces_safe_regex Sample.config_unsafe group mapping art
                Hprefix Hpath eq_refl Hinit Hprec)
      as (match_ & Hmatch & Hsafe & _).
    exists art, match_. split; [reflexivity|]. split; [exact Hmatch | exact Hsafe].
  - set (group := Sample.group "^/group.*" (Some (-1000000)) None None
                    (Some {| hr_service := "elsewhere"; hr_path_redirect := None |})).
    assert (EnvoyRoute group ≠ "prefix") as Hprefix by (vm_compute; discriminate).
    assert (EnvoyRoute group ≠ "path") as Hpath by (vm_compute; discriminate).
    destruct (V2Route_init Sample.config_unsafe group empty_mapping)
      as [art|e] eqn:Hinit; [|vm_compute in Hinit; discriminate Hinit].
    assert (r_precedence art = Some (-1000000)) as Hprec.
    { vm_compute in Hinit. by injection Hinit as <-. }
    destruct (sentinel_forces_safe_regex Sample.config_unsafe group empty_mapping art
                Hprefix Hpath eq_refl Hinit Hprec)
      as (match_ & Hmatch & Hsafe & _).
    exists art, match_. split; [reflexivity|]. split; [exact Hmatch | exact Hsafe].
Defined.

Lemma runtime_fraction_shape_witness :
  (∃ art match_,
     V2Route_init Sample.config
       (Sample.group "/foo/" None (Some Sample.no_regex_rewrite) None None)
       (Sample.mapping "/foo/" 30 None) = Ok art
     ∧ r_match art = Some match_
     ∧ mt_runtime_fraction match_ =
         {| default_value := {| numerator := 30; denominator := "HUNDRED" |};
            runtime_key := Some "routing.traffic_shift.c1" |})
  ∧ (∃ art match_,
       V2Route_init Sample.config
         (Sample.group "/foo/" None None None
            (Some {| hr_service := "elsewhere"; hr_path_redirect := None |}))
         empty_mapping = Ok art
       ∧ r_match art = Some match_
       ∧ mt_runtime_fraction match_ =
           {| default_value := {| numerator := 100; denominator := "HUNDRED" |};
              runtime_key := None |}).
Proof.
  split.
  - eexists.
    destruct (runtime_fraction_shape Sample.config
                (Sample.group "/foo/" None (Some Sample.no_regex_rewrite) None None)
                (Sample.mapping "/foo/" 30 None) _ eq_refl)
      as (match_ & Hmatch & Hdefault & Hkey & Hname & _).
    exists match_. split; [reflexivity|]. split; [exact Hmatch|].
    destruct (proj2 Hkey) as [key Hk]; [vm_compute; lia|].
    destruct (Hname key Hk) as (cluster & [= <-] & ->).
    destruct (mt_runtime_fraction match_) as [dv rk]. simpl in *.
    by rewrite Hdefault, Hk.
  - eexists.
    destruct (runtime_fraction_shape Sample.config
                (Sample.group "/foo/" None None None
                   (Some {| hr_service := "elsewhere"; hr_path_redirect := None |}))
                empty_mapping _ eq_refl)
      as (match_ & Hmatch & _ & _ & _ & Hempty).
    exists match_. split; [reflexivity|]. split; [exact Hmatch|].
    by apply Hempty.
Defined.

Lemma hash_policy_field_witness :
  ∃ art route,
    V2Route_init Sample.config
      (Sample.group "/foo/" None (Some Sample.no_regex_rewrite)
         (Some {| lb_policy := Some "ring_hash";
                  lb_cookie := Some {| ck_name := Some "sticky"; ck_path := None;
                                       ck_ttl := Some "60s" |};
                  lb_header := Some "x-user"; lb_source_ip := None |})
         None)
      (Sample.mapping "/foo/" 100 None) = Ok art
    ∧ r_route art = Some route
    ∧ rt_hash_policy route =
        Some [ {| hp_cookie := Some {| cp_name := Some "sticky"; cp_path := None;
                                       cp_ttl := Some "60s" |};
                  hp_header := None; hp_connection_properties := None |} ].
Proof.
  set (lb := {| lb_policy := Some "ring_hash";
                lb_cookie := Some {| ck_name := Some "sticky"; ck_path := None;
                                     ck_ttl := Some "60s" |};
                lb_header := Some "x-user"; lb_source_ip := None |}).
  set (group := Sample.group "/foo/" None (Some Sample.no_regex_rewrite) (Some lb) None).
  set (mapping := Sample.mapping "/foo/" 100 None).
  do 2 eexists. split; [reflexivity|]. split; [reflexivity|].
  destruct (hash_policy_field Sample.config group mapping _ _ eq_refl eq_refl)
    as (_ & Hfirst & _).
  destruct (Hfirst lb eq_refl (or_introl eq_refl)) as (Hcookie & _).
  exact (Hcookie _ eq_refl).
Defined.

Lemma host_constraints_spec_witness :
  host_constraints (Sample.route_for ["api.example.com"] "api.example.com") true
    = {[ "api.example.com" ]}
  ∧ host_constraints (Sample.route_for ["api.example.com"] "other.example.com") true
    = ∅
  ∧ host_constraints (Sample.route_for ["api.example.com"] "other.example.com") false
    = {[ "api.example.com" ]}.
Proof.
  split; [|split].
  - destruct (host_constraints_spec
                (Sample.route_for ["api.example.com"] "api.example.com"))
      as (_ & _ & _ & Hprune & _).
    apply (Hprune [] _ [] "api.example.com" eq_refl); [constructor | done | done |].
    exists "api.example.com". split; [|reflexivity].
    unfold base_hosts. simpl. set_solver.
  - destruct (host_constraints_spec
                (Sample.route_for ["api.example.com"] "other.example.com"))
      as (_ & _ & _ & Hprune & _).
    apply (Hprune [] _ [] "other.example.com" eq_refl); [constructor | done | done |].
    intros glob Hin.
    unfold base_hosts in Hin.
    apply elem_of_list_to_set, list_elem_of_singleton in Hin as ->.
    discriminate.
  - destruct (host_constraints_spec
                (Sample.route_for ["api.example.com"] "other.example.com"))
      as (Hbase & _ & -> & _).
    rewrite (Hbase _ eq_refl). simpl. set_solver.
Defined.


(** ** Groups without a ['regex_rewrite'] *)

(** C1 fails on the code: for a group without ['regex_rewrite'] (and without
    a redirect) [generate_regex_rewrite] raises [AttributeError], and so does
    the constructor; the literal rewrite ["/bar/"] of the mapping never
    becomes a [prefix_rewrite]. *)
Theorem regex_rewrite_absent_raises :
  generate_regex_rewrite Sample.config (Sample.group "/foo/" None None None None)
    = Raise AttributeError
  ∧ V2Route_init Sample.config (Sample.group "/foo/" None None None None)
      (Sample.mapping "/foo/" 100 (Some "/bar/"))
    = Raise AttributeError.
Proof. split; reflexivity. Qed.

(** C2 fails on the code for the same reason: the group with one mapping
    (prefix ["/foo/"], weight 100, cluster ["c1"], no timeout, no redirect,
    no rewrite of either kind) is not compiled to a route; the constructor
    raises [AttributeError]. *)
Theorem end_to_end_raises :
  V2Route_init Sample.config (Sample.group "/foo/" None None None None)
    (Sample.mapping "/foo/" 100 None)
  = Raise AttributeError.
Proof. reflexivity. Qed.

(** The route the same inputs give once the group has an empty
    ['regex_rewrite'] dictionary. *)
Lemma end_to_end_with_empty_regex_rewrite :
  ∃ art match_ route,
    V2Route_init Sample.config
      (Sample.group "/foo/" None (Some Sample.no_regex_rewrite) None None)
      (Sample.mapping "/foo/" 100 None) = Ok art
    ∧ r_match art = Some match_ ∧ r_route art = Some route
    ∧ mt_prefix match_ = Some (Some "/foo/")
    ∧ rt_timeout route = "3.000s"
    ∧ rt_cluster route = "c1"
    ∧ rt_idle_timeout route = None.
Proof. do 3 eexists. by vm_compute. Qed.

(** * The further properties on the sample inputs *)

#[local] Existing Instance MoreSamples.element_store.

Lemma hostglob_matches_false_or_none_witness :
  hostglob_matches "foo*" "bar" = None
  ∧ hostglob_matches "foo" "bar" = Some false.
Proof.
  split.
  - apply (proj2 (hostglob_matches_false_or_none "foo*" "bar")). split.
    + left. by exists "foo".
    + discriminate.
  - apply (proj1 (hostglob_matches_false_or_none "foo" "bar")). split_and!.
    + intros Ht%trailing_wildcard_spec. discriminate.
    + intros Hl%leading_wildcard_spec. discriminate.
    + discriminate.
Defined.

Lemma host_constraints_covered_witness :
  ∃ glob,
    glob ∈ base_hosts (Sample.route_for ["*.example.com"] "api.example.com")
    ∧ hostglob_matches glob "api.example.com" = Some true.
Proof.
  apply (host_constraints_covered
           (Sample.route_for ["*.example.com"] "api.example.com") true).
  by vm_compute.
Defined.

Lemma host_constraints_wildcard_witness :
  host_constraints (Sample.route_for ["*"; "a.example.com"] "b.example.com") true ≠ ∅.
Proof.
  apply host_constraints_wildcard. right.
  apply elem_of_list_to_set. by left.
Defined.

Lemma regex_authority_never_prunes_witness :
  ∃ art,
    V2Route_init Sample.config (MoreSamples.authority_group true)
      (Sample.mapping "/foo/" 100 None) = Ok art
    ∧ host_constraints art true = host_constraints art false.
Proof.
  eexists. split; [reflexivity|].
  apply (regex_authority_never_prunes Sample.config
           (MoreSamples.authority_group true) (Sample.mapping "/foo/" 100 None) _
           eq_refl).
  intros group_header Hin _.
  apply list_elem_of_singleton in Hin as ->. reflexivity.
Defined.

Lemma constructed_base_hosts_witness :
  ∃ art,
    V2Route_init Sample.config (MoreSamples.authority_group false)
      (Sample.mapping "/foo/" 100 None) = Ok art
    ∧ host_constraints art false = list_to_set ["*.example.com"].
Proof.
  eexists. split; [reflexivity|].
  destruct (constructed_base_hosts Sample.config
              (MoreSamples.authority_group false) (Sample.mapping "/foo/" 100 None) _
              eq_refl) as [Hsni _].
  destruct (Hsni eq_refl) as (tls_context & [= <-] & Hhosts).
  exact Hhosts.
Defined.

Lemma regex_matcher_one_field_witness :
  size (regex_matcher Sample.config_unsafe (Some "^/x") "regex" (Some EmptyString)
          (Some "UNSAFE")) = 1%nat
  ∧ effective_re_type Sample.config_unsafe (Some "UNSAFE") ≠ "unsafe".
Proof.
  destruct (regex_matcher_one_field Sample.config_unsafe (Some "^/x") "regex"
              (Some EmptyString) (Some "UNSAFE")) as [Hsize Hfield].
  split; [exact Hsize|].
  destruct (Hfield "safe_regex"
              (Bounded {| google_re2 := {| max_program_size := 200 |};
                          sr_regex := Some "^/x" |}) eq_refl)
    as [(Hunsafe & _)|(Hsafe & _)]; [discriminate Hunsafe | exact Hsafe].
Defined.

Lemma regex_rewrite_always_bounded_witness :
  ∃ art route,
    V2Route_init Sample.config_unsafe
      (Sample.group "/foo/" None
         (Some {| rr_pattern := Some "^/foo/(.*)"; rr_substitution := Some "/bar/" |})
         None None)
      (Sample.mapping "/foo/" 100 (Some "/literal/")) = Ok art
    ∧ r_route art = Some route
    ∧ rt_regex_rewrite route =
        Some {| rw_matcher_fields :=
                  {[ "pattern" :=
                       Bounded {| google_re2 := {| max_program_size := 200 |};
                                  sr_regex := Some "^/foo/(.*)" |} ]};
                rw_substitution := Some "/bar/" |}
    ∧ rt_prefix_rewrite route = None.
Proof.
  do 2 eexists. split; [reflexivity|]. split; [reflexivity|].
  exact (regex_rewrite_always_bounded Sample.config_unsafe
           (Sample.group "/foo/" None
              (Some {| rr_pattern := Some "^/foo/(.*)";
                       rr_substitution := Some "/bar/" |}) None None)
           (Sample.mapping "/foo/" 100 (Some "/literal/")) _ _ _ "^/foo/(.*)"
           eq_refl eq_refl eq_refl eq_refl).
Defined.

Lemma rewrites_exclusive_witness :
  ∃ art route,
    V2Route_init Sample.config MoreSamples.plain_group
      (Sample.mapping "/foo/" 100 (Some "/bar/")) = Ok art
    ∧ r_route art = Some route
    ∧ (rt_regex_rewrite route = None ∨ rt_prefix_rewrite route = None).
Proof.
  do 2 eexists. split; [reflexivity|]. split; [reflexivity|].
  exact (proj1 (rewrites_exclusive Sample.config MoreSamples.plain_group
                  (Sample.mapping "/foo/" 100 (Some "/bar/")) _ _ eq_refl eq_refl)).
Defined.

Lemma redirect_or_route_witness :
  (∃ art redirect,
     V2Route_init Sample.config MoreSamples.redirect_group empty_mapping = Ok art
     ∧ r_route art = None
     ∧ r_redirect art = Some redirect
     ∧ path_redirect redirect = None)
  ∧ (∃ art redirect,
       V2Route_init Sample.config
         (Sample.group "/old/" None None None
            (Some {| hr_service := "elsewhere"; hr_path_redirect := Some "/new/" |}))
         empty_mapping = Ok art
       ∧ r_route art = None
       ∧ r_redirect art = Some redirect
       ∧ path_redirect redirect = Some "/new/").
Proof.
  split.
  - destruct (V2Route_init Sample.config MoreSamples.redirect_group empty_mapping)
      as [art|e] eqn:Hinit; [|vm_compute in Hinit; discriminate Hinit].
    destruct (redirect_or_route _ _ _ _ Hinit) as (Hredirect & _ & Hnone & Hshape).
    assert (is_Some (r_redirect art)) as Hsome by (apply Hredirect; by eexists).
    destruct Hsome as [redirect Hr].
    destruct (Hshape redirect Hr) as (target & Htarget & _ & _ & _ & Hempty).
    injection Htarget as <-.
    exists art, redirect. split; [reflexivity|].
    split; [apply Hnone; by eexists|]. split; [exact Hr|].
    apply Hempty. by right.
  - set (group := Sample.group "/old/" None None None
                    (Some {| hr_service := "elsewhere";
                             hr_path_redirect := Some "/new/" |})).
    destruct (V2Route_init Sample.config group empty_mapping)
      as [art|e] eqn:Hinit; [|vm_compute in Hinit; discriminate Hinit].
    destruct (redirect_or_route _ _ _ _ Hinit) as (Hredirect & _ & Hnone & Hshape).
    assert (is_Some (r_redirect art)) as Hsome by (apply Hredirect; by eexists).
    destruct Hsome as [redirect Hr].
    destruct (Hshape redirect Hr) as (target & Htarget & _ & _ & Hpath & _).
    injection Htarget as <-.
    exists art, redirect. split; [reflexivity|].
    split; [apply Hnone; by eexists|]. split; [exact Hr|].
    by apply Hpath.
Defined.

Lemma one_path_specifier_witness :
  ∃ art match_,
    V2Route_init Sample.config
      (Sample.group "^/x.*" None (Some Sample.no_regex_rewrite) None None)
      (Sample.mapping "^/x.*" 100 None) = Ok art
    ∧ r_match art = Some match_
    ∧ (present (mt_prefix match_) + present (mt_path match_)
       + size (mt_matcher_fields match_) = 1)%nat.
Proof.
  destruct (V2Route_init Sample.config
              (Sample.group "^/x.*" None (Some Sample.no_regex_rewrite) None None)
              (Sample.mapping "^/x.*" 100 None)) as [art|e] eqn:Hinit;
    [|vm_compute in Hinit; discriminate Hinit].
  destruct (V2Route_init_Ok _ _ _ _ Hinit) as (_ & _ & _ & (match_ & _ & Hmatch) & _).
  exists art, match_. split; [reflexivity|]. split; [exact Hmatch|].
  exact (proj1 (one_path_specifier _ _ _ _ _ Hinit Hmatch)).
Defined.

Lemma no_empty_lists_witness :
  ∃ art,
    V2Route_init Sample.config (MoreSamples.authority_group false)
      (Sample.mapping "/foo/" 100 None) = Ok art
    ∧ r_request_headers_to_add art ≠ Some []
    ∧ r_request_headers_to_remove art ≠ Some [].
Proof.
  eexists. split; [reflexivity|].
  destruct (no_empty_lists Sample.config (MoreSamples.authority_group false)
              (Sample.mapping "/foo/" 100 None) _ eq_refl)
    as (_ & Hadd & _ & Hremove & _).
  split; [exact Hadd | exact Hremove].
Defined.


Lemma generate_query_parameters_one_constraint_witness :
  map qm_name (generate_query_parameters Sample.config
                 (MoreSamples.authority_group true))
  = ["debug"].
Proof.
  exact (proj1 (generate_query_parameters_one_constraint Sample.config
                  (MoreSamples.authority_group true))).
Defined.

Lemma generate_headers_to_add_errors_witness :
  (∃ headers, generate_headers_to_add
                [ ("x-a", VStr "1");
                  ("x-b", VDict [("value", VStr "2"); ("append", VBool false)]) ]
              = Ok headers)
  ∧ ¬ (∃ headers, generate_headers_to_add
                    [ ("x-a", VStr "1"); ("x-b", VDict [("append", VBool false)]) ]
                  = Ok headers).
Proof.
  split.
  - apply (proj1 (generate_headers_to_add_errors _)).
    intros k fields Hin.
    apply elem_of_cons in Hin as [Hin|Hin]; [discriminate Hin|].
    apply list_elem_of_singleton in Hin. injection Hin as -> ->. by eexists.
  - intros Hok.
    destruct (proj1 (proj1 (generate_headers_to_add_errors _)) Hok "x-b"
                [("append", VBool false)]) as [value Hvalue].
    + right. by left.
    + discriminate Hvalue.
Defined.

Lemma V2Route_init_succeeds_iff_witness :
  (∃ art,
     V2Route_init Sample.config (MoreSamples.authority_group false)
       (Sample.mapping "/foo/" 100 None) = Ok art)
  ∧ (∃ art,
       V2Route_init Sample.config MoreSamples.plain_group
         (MoreSamples.timed_mapping (2 ^ 63) (Some (-1500))) = Ok art)
  ∧ ¬ (∃ art,
         V2Route_init Sample.config MoreSamples.plain_group
           (MoreSamples.timed_mapping (10 ^ 400) None) = Ok art)
  ∧ ¬ (∃ art,
         V2Route_init Sample.config MoreSamples.plain_group
           (MoreSamples.timed_mapping 3000 (Some (- 2 ^ 1024))) = Ok art).
Proof.
  split; [|split; [|split]].
  - apply V2Route_init_succeeds_iff. split_and!.
    + intros _. by eexists.
    + intros _. by eexists.
    + intros k fields Hin. apply list_elem_of_singleton in Hin. discriminate Hin.
    + intros k fields Hin. by apply elem_of_nil in Hin.
    + intros _. split; [by eexists|]. split; [by eexists|].
      split; [intros shadow rest [=]|].
      split; [vm_compute; reflexivity | intros ms [=]].
  - apply V2Route_init_succeeds_iff. split_and!.
    + intros [=].
    + intros _. by eexists.
    + intros k fields Hin. by apply elem_of_nil in Hin.
    + intros k fields Hin. by apply elem_of_nil in Hin.
    + intros _. split; [by eexists|]. split; [by eexists|].
      split; [intros shadow rest [=]|].
      split; [vm_compute; reflexivity | intros ms [= <-]; vm_compute; reflexivity].
  - intros Hart.
    apply V2Route_init_succeeds_iff in Hart as (_ & _ & _ & _ & Hroute).
    destruct (Hroute eq_refl) as (_ & _ & _ & Htimeout & _).
    vm_compute in Htimeout. discriminate Htimeout.
  - intros Hart.
    apply V2Route_init_succeeds_iff in Hart as (_ & _ & _ & _ & Hroute).
    destruct (Hroute eq_refl) as (_ & _ & _ & _ & Hidle).
    specialize (Hidle _ eq_refl). vm_compute in Hidle. discriminate Hidle.
Defined.

(** What the constructor does with these timeouts: [2^63] milliseconds are
    printed as the double nearest to the quotient, and the two that do not
    fit a double raise [OverflowError]. *)
Lemma V2Route_init_timeouts :
  (∃ art route,
     V2Route_init Sample.config MoreSamples.plain_group
       (MoreSamples.timed_mapping (2 ^ 63) (Some (-1500))) = Ok art
     ∧ r_route art = Some route
     ∧ rt_timeout route = "9223372036854776.000s"
     ∧ rt_idle_timeout route = Some "-1.500s")
  ∧ V2Route_init Sample.config MoreSamples.plain_group
      (MoreSamples.timed_mapping (10 ^ 400) None) = Raise OverflowError
  ∧ V2Route_init Sample.config MoreSamples.plain_group
      (MoreSamples.timed_mapping 3000 (Some (- 2 ^ 1024))) = Raise OverflowError.
Proof.
  split; [|split].
  - do 2 eexists. by vm_compute.
  - by vm_compute.
  - by vm_compute.
Qed.

Lemma get_route_only_adds_witness :
  ∃ l st,
    get_route Sample.config empty_cache "Route-g1-m1" MoreSamples.plain_group
      (Sample.mapping "/foo/" 100 None) = Ok (l, st)
    ∧ store st !! "Route-g1-m1" = Some l
    ∧ cache_wf st.
Proof.
  set (result := get_route Sample.config empty_cache "Route-g1-m1"
                   MoreSamples.plain_group (Sample.mapping "/foo/" 100 None)).
  set (st := match result with Ok (_, st) => st | Raise _ => empty_cache end).
  assert (result = Ok (0%nat, st)) as Hget by (vm_compute; reflexivity).
  exists 0%nat, st. split; [exact Hget|].
  destruct (get_route_only_adds _ _ _ _ _ _ _ Hget) as (_ & _ & _ & _ & Hkey & Hwf).
  split; [exact Hkey|].
  apply Hwf. intros key l Hl. done.
Defined.

Lemma generate_in_request_order_witness :
  ∃ routes st,
    generate Sample.config empty_cache MoreSamples.ordered_groups = Ok (routes, st)
    ∧ length routes = 3%nat
    ∧ map rq_key (generate_requests MoreSamples.ordered_groups)
      = ["Route-g1-m1"; "Route-g1-m2"; "Route-g1-hostredirect"].
Proof.
  set (result := generate Sample.config empty_cache MoreSamples.ordered_groups).
  set (st := match result with Ok (_, st) => st | Raise _ => empty_cache end).
  assert (result = Ok ([0; 1; 2]%nat, st)) as Hgen by (vm_compute; reflexivity).
  exists [0; 1; 2]%nat, st. split; [exact Hgen|].
  destruct (generate_in_request_order Sample.config empty_cache
              MoreSamples.ordered_groups) as [_ Hlen].
  destruct (Hlen _ _ Hgen) as [_ Hlength].
  split; [exact Hlength | reflexivity].
Defined.

Lemma generate_again_witness :
  ∃ routes st,
    generate Sample.config empty_cache MoreSamples.ordered_groups = Ok (routes, st)
    ∧ generate Sample.config st MoreSamples.ordered_groups = Ok (routes, st).
Proof.
  set (result := generate Sample.config empty_cache MoreSamples.ordered_groups).
  set (st := match result with Ok (_, st) => st | Raise _ => empty_cache end).
  assert (result = Ok ([0; 1; 2]%nat, st)) as Hgen by (vm_compute; reflexivity).
  exists [0; 1; 2]%nat, st. split; [exact Hgen|].
  exact (generate_again _ _ _ _ _ Hgen).
Defined.

Lemma generate_fills_cache_witness :
  ∃ routes st,
    generate Sample.config empty_cache MoreSamples.ordered_groups = Ok (routes, st)
    ∧ cache_wf st
    ∧ ∃ l route, store st !! "Route-g1-hostredirect" = Some l
                 ∧ heap st !! l = Some (CRoute route)
                 ∧ r_cache_key route = Some "Route-g1-hostredirect".
Proof.
  set (result := generate Sample.config empty_cache MoreSamples.ordered_groups).
  set (st := match result with Ok (_, st) => st | Raise _ => empty_cache end).
  assert (result = Ok ([0; 1; 2]%nat, st)) as Hgen by (vm_compute; reflexivity).
  assert (cache_wf empty_cache) as Hwf by (intros key l Hl; done).
  exists [0; 1; 2]%nat, st. split; [exact Hgen|].
  destruct (generate_fills_cache _ _ _ _ _ Hwf Hgen) as (Hwf' & _ & _ & Hkeys).
  split; [exact Hwf'|].
  apply (Hkeys {| rq_key := "Route-g1-hostredirect";
                  rq_group := MoreSamples.redirect_group;
                  rq_mapping := empty_mapping |}).
  do 2 right. by left.
Defined.
